(** * Loopback gRPC streams of the storage plugin: model and properties

    Source: internal/plugin/loopback/testing_grpc_stream.go

    The file mocks the GetObject (server streaming) and PutObject (client
    streaming) RPCs with unbuffered Go channels shared by a client and a
    server facade, and a mutex-protected "closed" flag per channel.

    The embedding has three layers:
    - the part of the Go runtime the code relies on: [error] values,
      unbuffered channels and the [close] builtin (which panics on a
      closed channel);
    - stream operations as programs over atomic (mutex-protected)
      sections and channel sends/receives, with Go's [defer] and panics;
    - two semantics of programs: [exec], the run of one operation whose
      hand-offs are taken by a ready counterpart, and [step], the
      interleaving of a server thread and a client thread that meet on
      the channels. *)

From Stdlib Require Import String List Bool Arith Lia Eqdep_dec.
Import ListNotations.
Local Open Scope string_scope.

(** ** Go runtime *)

(** Go [error] values: the sentinel [io.EOF] and the errors built by
    [fmt.Errorf], identified by their text. Nilable Go values ([*T],
    [error]) are options throughout: [None] is [nil]. *)
Inductive error : Type :=
| io_EOF
| errorString (text : string).

(** Run-time state of an unbuffered channel carrying [M]: nothing is
    stored in it, a send completes only when a receive takes the value. *)
Record chan (M : Type) : Type := mkChan { closed : bool }.
Arguments mkChan {M} _.
Arguments closed {M} _.

(** [make(chan M)] *)
Definition make_chan {M : Type} : chan M := mkChan false.

(** [close(c)]: [None] is the run-time panic "close of closed channel". *)
Definition close {M : Type} (c : chan M) : option (chan M) :=
  if closed c then None else Some (mkChan true).

(** ** Programs over a shared stream *)

(** The channels of a stream type [St]: their names, the type of message
    each one carries, and where its state lives in the stream. *)
Class Channels (St : Type) : Type := {
  Ch : Type;
  Msg : Ch -> Type;
  chan_of : St -> forall c : Ch, chan (Msg c);
  Ch_eq_dec : forall a b : Ch, {a = b} + {a <> b}
}.

Section Machine.
Context {St : Type} {CH : Channels St}.

(** One goroutine's code.
    - [Atomic f k h]: a section run under the stream's mutex; [f]
      returns the new stream and a value, or [None] when it panics;
      [k] continues, [h] is what is left to run when it panics;
    - [Send c v k h]: [c <- v]; [h] runs when the send panics because
      [c] is closed;
    - [Recv c k]: [v, ok := <-c]; [k None] when [c] is closed. *)
Inductive prog (R : Type) : Type :=
| Ret (r : R)
| Panic
| Atomic {X : Type} (f : St -> option (St * X)) (k : X -> prog R) (h : prog R)
| Send (c : Ch) (v : Msg c) (k : prog R) (h : prog R)
| Recv (c : Ch) (k : option (Msg c) -> prog R).

Arguments Ret {R} _.
Arguments Panic {R}.
Arguments Atomic {R X} _ _ _.
Arguments Send {R} _ _ _ _.
Arguments Recv {R} _ _.

Fixpoint bind {A B : Type} (p : prog A) (g : A -> prog B) : prog B :=
  match p with
  | Ret a => g a
  | Panic => Panic
  | Atomic f k h => Atomic f (fun x => bind (k x) g) (bind h g)
  | Send c v k h => Send c v (bind k g) (bind h g)
  | Recv c k => Recv c (fun m => bind (k m) g)
  end.

(** [defer d; body]: [d] runs when [body] returns and when it panics;
    the panic goes on after [d]. *)
Fixpoint defer {R : Type} (d : prog unit) (body : prog R) : prog R :=
  match body with
  | Ret r => bind d (fun _ => Ret r)
  | Panic => bind d (fun _ => Panic)
  | Atomic f k h => Atomic f (fun x => defer d (k x)) (defer d h)
  | Send c v k h => Send c v (defer d k) (defer d h)
  | Recv c k => Recv c (fun m => defer d (k m))
  end.

(** A mutex-protected method of the stream as one atomic step. *)
Definition locked {X : Type} (f : St -> option (St * X)) : prog X :=
  Atomic f Ret Panic.

(** [c <- v] *)
Definition chan_send (c : Ch) (v : Msg c) : prog unit :=
  Send c v (Ret tt) Panic.

(** [v, ok := <-c] *)
Definition chan_recv (c : Ch) : prog (option (Msg c)) :=
  Recv c Ret.

(** *** One operation on its own *)

(** What a hand-off on a channel shows to the outside. *)
Inductive event : Type :=
| Handoff (c : Ch) (v : Msg c).

Inductive outcome (R : Type) : Type :=
| Returned (r : R)
| Panicked
| Awaiting (c : Ch) (k : option (Msg c) -> prog R).

Arguments Returned {R} _.
Arguments Panicked {R}.
Arguments Awaiting {R} _ _.

(** [exec s p] runs [p] from stream [s] with a counterpart that takes
    every value sent on an open channel and sends nothing: the result
    is the stream at the end, the values handed off, and how the run
    ended ([Awaiting]: blocked in a receive on an open channel). *)
Fixpoint exec {R : Type} (s : St) (p : prog R) : St * list event * outcome R :=
  match p with
  | Ret r => (s, [], Returned r)
  | Panic => (s, [], Panicked)
  | Atomic f k h =>
      match f s with
      | Some (s', x) => exec s' (k x)
      | None => exec s h
      end
  | Send c v k h =>
      if closed (chan_of s c) then exec s h
      else let '(s', tr, o) := exec s k in (s', Handoff c v :: tr, o)
  | Recv c k =>
      if closed (chan_of s c) then exec s (k None)
      else (s, [], Awaiting c k)
  end.

(** *** Two goroutines *)

(** What one goroutine can do next in stream [s]. *)
Inductive offer (R : Type) : Type :=
| Tau (s' : St) (p' : prog R)
| Sending (c : Ch) (v : Msg c) (p' : prog R)
| Receiving (c : Ch) (k : option (Msg c) -> prog R)
| Halted.

Arguments Tau {R} _ _.
Arguments Sending {R} _ _ _.
Arguments Receiving {R} _ _.
Arguments Halted {R}.

Definition local {R : Type} (s : St) (p : prog R) : offer R :=
  match p with
  | Ret _ | Panic => Halted
  | Atomic f k h =>
      match f s with
      | Some (s', x) => Tau s' (k x)
      | None => Tau s h
      end
  | Send c v k h =>
      if closed (chan_of s c) then Tau s h else Sending c v k
  | Recv c k =>
      if closed (chan_of s c) then Tau s (k None) else Receiving c k
  end.

Definition config (A B : Type) : Type := (St * prog A * prog B)%type.

(** The server goroutine and the client goroutine interleave; a send
    and a receive on the same open channel meet in one step. *)
Inductive step {A B : Type} : config A B -> config A B -> Prop :=
| step_server s p q s' p' :
    local s p = Tau s' p' -> step (s, p, q) (s', p', q)
| step_client s p q s' q' :
    local s q = Tau s' q' -> step (s, p, q) (s', p, q')
| step_to_client s p q c v p' k :
    local s p = Sending c v p' -> local s q = Receiving c k ->
    step (s, p, q) (s, p', k (Some v))
| step_to_server s p q c v q' k :
    local s q = Sending c v q' -> local s p = Receiving c k ->
    step (s, p, q) (s, k (Some v), q').

Definition tau_of {R : Type} (s : St) (p : prog R) : list (St * prog R) :=
  match local s p with
  | Tau s' p' => [(s', p')]
  | _ => []
  end.

Definition meet {A B : Type} (s : St) (p : prog A) (q : prog B)
  : list (prog A * prog B) :=
  match local s p, local s q with
  | Sending c v p', Receiving c' k =>
      match Ch_eq_dec c c' with
      | left e => [(p', k (Some (eq_rect c Msg v c' e)))]
      | right _ => []
      end
  | _, _ => []
  end.

(** The successors of a configuration, computed. *)
Definition succs {A B : Type} (cfg : config A B) : list (config A B) :=
  let '(s, p, q) := cfg in
  map (fun sp => (fst sp, snd sp, q)) (tau_of s p)
  ++ map (fun sq => (fst sq, p, snd sq)) (tau_of s q)
  ++ map (fun pq => (s, fst pq, snd pq)) (meet s p q)
  ++ map (fun qp => (s, snd qp, fst qp)) (meet s q p).

Definition finished {R : Type} (p : prog R) : bool :=
  match p with
  | Ret _ | Panic => true
  | _ => false
  end.

Definition terminal {A B : Type} (cfg : config A B) : bool :=
  let '(_, p, q) := cfg in finished p && finished q.

(** Every run from [cfg] is finite, never gets stuck before both
    goroutines are done, and ends in a configuration satisfying [P]. *)
Inductive always_ends {A B : Type} (P : config A B -> Prop)
  : config A B -> Prop :=
| ends_here cfg : terminal cfg = true -> P cfg -> always_ends P cfg
| ends_later cfg :
    (exists cfg', step cfg cfg') ->
    (forall cfg', step cfg cfg' -> always_ends P cfg') ->
    always_ends P cfg.

Inductive steps {A B : Type} : config A B -> config A B -> Prop :=
| steps_refl cfg : steps cfg cfg
| steps_cons cfg1 cfg2 cfg3 :
    step cfg1 cfg2 -> steps cfg2 cfg3 -> steps cfg1 cfg3.

End Machine.

Arguments Ret {St CH R} _.
Arguments Panic {St CH R}.
Arguments Atomic {St CH R X} _ _ _.
Arguments Send {St CH R} _ _ _ _.
Arguments Recv {St CH R} _ _.
Arguments Handoff {St CH} _ _.
Arguments Returned {St CH R} _.
Arguments Panicked {St CH R}.
Arguments Awaiting {St CH R} _ _.
Arguments Tau {St CH R} _ _.
Arguments Sending {St CH R} _ _ _.
Arguments Receiving {St CH R} _ _.
Arguments Halted {St CH R}.

Notation "x <- p ;; q" := (bind p (fun x => q))
  (at level 61, p at next level, right associativity).
Notation "p ;; q" := (bind p (fun _ => q))
  (at level 61, right associativity).

From Stdlib Require NArith OrdersEx Sorted.

(** ** Options of package convert *)

(** [options]: how options are represented. *)
Record options : Type := mkOptions {
  withChannelId : string
}.

(** [Option], a function on a pointer to [options]: what a call does to
    the struct it is given; [None] is the nil function, which panics when
    it is called. *)
Definition Option : Type := option (options -> options).

Definition getDefaultOptions : options := mkOptions "".

Definition WithChannelId (id : string) : Option :=
  Some (fun o => mkOptions id).

(** [getOpts]: [None] is the panic of a call of a nil [Option]. *)
Fixpoint getOpts_from (opts : options) (opt : list Option) : option options :=
  match opt with
  | [] => Some opts
  | None :: _ => None
  | Some o :: rest => getOpts_from (o opts) rest
  end.

Definition getOpts (opt : list Option) : option options :=
  getOpts_from getDefaultOptions opt.

(** ** Host catalogs: the pages of a list *)

(** Go's order on strings. *)
Definition string_lt (x y : string) : Prop :=
  OrdersEx.String_as_OT.compare x y = Lt.

Definition string_le (x y : string) : Prop :=
  OrdersEx.String_as_OT.compare x y <> Gt.

(** [slices.Sort] on strings. Strings that compare equal are the same
    string, so the slice it leaves is the one ascending rearrangement of
    its elements, whatever the algorithm; insertion computes it. The
    order is Go's: byte by byte. *)
Fixpoint Sort_insert (x : string) (l : list string) : list string :=
  match l with
  | [] => [x]
  | y :: rest =>
      match OrdersEx.String_as_OT.compare x y with
      | Gt => y :: Sort_insert x rest
      | _ => x :: l
      end
  end.

Fixpoint Sort (l : list string) : list string :=
  match l with
  | [] => []
  | x :: rest => Sort_insert x (Sort rest)
  end.

(** [slices.Compact]: of every run of equal elements the first is
    kept. *)
Fixpoint Compact (l : list string) : list string :=
  match l with
  | [] => []
  | x :: rest =>
      match rest with
      | [] => [x]
      | y :: _ => if String.eqb x y then Compact rest else x :: Compact rest
      end
  end.

(** [s[i] = x] on a slice; [None] is the panic "index out of range". *)
Fixpoint slice_set {A : Type} (s : list A) (i : nat) (x : A)
  : option (list A) :=
  match s, i with
  | [], _ => None
  | _ :: rest, O => Some (x :: rest)
  | y :: rest, S j =>
      match slice_set rest j x with
      | Some rest' => Some (y :: rest')
      | None => None
      end
  end.

(** A [map[string]int] with indexes as values. *)
Definition index_map : Type := string -> option nat.

Definition index_map_empty : index_map := fun _ => None.

Definition index_map_set (m : index_map) (k : string) (v : nat) : index_map :=
  fun k' => if String.eqb k' k then Some v else m k'.

Section HostCatalogs.

(** Types of other packages: [scopes.ScopeInfo], [plugins.PluginInfo],
    [time.Time], [map[string]interface{}], [map[string][]string],
    [api.Response] and [api.Client]. *)
Variables ScopeInfo PluginInfo Time JsonObject ActionsMap : Type.
Variables Response ApiClient : Type.

Record HostCatalog : Type := mkHostCatalog {
  Id : string;
  ScopeId : string;
  Scope : option ScopeInfo;
  PluginId : string;
  Plugin : option PluginInfo;
  Name : string;
  Description : string;
  CreatedTime : Time;
  UpdatedTime : Time;
  Version : BinNums.N;
  Type_ : string;
  Attributes : JsonObject;
  Secrets : JsonObject;
  SecretsHmac : string;
  WorkerFilter : string;
  AuthorizedActions : list string;
  AuthorizedCollectionActions : ActionsMap
}.

(** A [[]*HostCatalog]: [None] is a nil pointer. The items are never
    written through their pointers, so a pointer is the item it points
    to. *)
Definition items : Type := list (option HostCatalog).

Record HostCatalogListResult : Type := mkHostCatalogListResult {
  Items : items;
  EstItemCount : BinNums.N;
  RemovedIds : list string;
  ListToken : string;
  ResponseType : string;
  Response_ : option Response;
  recursive : bool;
  pageSize : BinNums.N;
  scopeId : string;
  allRemovedIds : list string
}.

Record Client : Type := mkClient {
  client : option ApiClient
}.

(** [ListNextPage], lines 484 to 527: the request for the next page is
    built from the current page and the options, sent, and its answer
    decoded into a new [HostCatalogListResult]. The outcome is taken as
    it comes: an error (already wrapped), or the decoded page and the
    response. *)
Variable Opt : Type.
Variable next_page_request :
  ApiClient -> HostCatalogListResult -> list Opt ->
  error + (HostCatalogListResult * Response).

(** What [slices.Compact] leaves in the slice behind the elements it
    keeps (the slice [allRemovedIds] still has the length it had). *)
Variable Compact_rest : list string -> list string.

(** [ListNextPage], lines 529 to 552, after a page was decoded. The
    slices [RemovedIds] and [allRemovedIds] of a complete page are one
    slice when it is sorted and compacted. *)
Definition ListNextPage_carry (currentPage nextPage : HostCatalogListResult)
    (resp : Response) : HostCatalogListResult :=
  let all := (allRemovedIds currentPage ++ RemovedIds nextPage)%list in
  if String.eqb (ResponseType nextPage) "complete" then
    mkHostCatalogListResult
      (Items nextPage) (EstItemCount nextPage)
      (Compact (Sort all))
      (ListToken nextPage) (ResponseType nextPage)
      (Some resp)
      (recursive currentPage) (pageSize currentPage) (scopeId currentPage)
      (Compact (Sort all) ++ Compact_rest (Sort all))%list
  else
    mkHostCatalogListResult
      (Items nextPage) (EstItemCount nextPage)
      (RemovedIds nextPage)
      (ListToken nextPage) (ResponseType nextPage)
      (Some resp)
      (recursive currentPage) (pageSize currentPage) (scopeId currentPage)
      all.

Definition ListNextPage (c : Client)
    (currentPage : option HostCatalogListResult) (opt : list Opt)
  : error + HostCatalogListResult :=
  match currentPage with
  | None =>
      inl (errorString
             "empty currentPage value passed into ListNextPage request")
  | Some cur =>
      if String.eqb (scopeId cur) "" then
        inl (errorString
          "empty scopeId value in currentPage passed into ListNextPage request")
      else
        match client c with
        | None => inl (errorString "nil client")
        | Some api =>
            if String.eqb (ResponseType cur) "complete"
               || String.eqb (ResponseType cur) "" then
              inl (errorString
                     "no more pages available in ListNextPage request")
            else
              match next_page_request api cur opt with
              | inl e => inl e
              | inr (nextPage, resp) =>
                  inr (ListNextPage_carry cur nextPage resp)
              end
        end
  end.

(** [List], lines 384 to 394: the index of every item of the first
    page, by id. [None] is the panic of reading [Id] through a nil
    pointer. *)
Fixpoint index_items (i : nat) (allItems : items) (idToIndex : index_map)
  : option index_map :=
  match allItems with
  | [] => Some idToIndex
  | None :: _ => None
  | Some item :: rest =>
      index_items (S i) rest (index_map_set idToIndex (Id item) i)
  end.

(** [List], lines 405 to 413, for one item of the next page: an item
    whose id was seen takes the place of the one seen, a new one is
    appended. *)
Definition merge_item (st : items * index_map) (item : option HostCatalog)
  : option (items * index_map) :=
  let '(allItems, idToIndex) := st in
  match item with
  | None => None
  | Some it =>
      match idToIndex (Id it) with
      | Some i =>
          match slice_set allItems i item with
          | Some allItems' => Some (allItems', idToIndex)
          | None => None
          end
      | None =>
          Some ((allItems ++ [item])%list,
                index_map_set idToIndex (Id it) (length allItems))
      end
  end.

Fixpoint merge_page (st : items * index_map) (page : items)
  : option (items * index_map) :=
  match page with
  | [] => Some st
  | item :: rest =>
      match merge_item st item with
      | Some st' => merge_page st' rest
      | None => None
      end
  end.

(** [List], lines 399 to 420: the items of the pages that the loop
    fetches, merged page after page. *)
Fixpoint merge_pages (st : items * index_map) (pages : list items)
  : option (items * index_map) :=
  match pages with
  | [] => Some st
  | page :: rest =>
      match merge_page st page with
      | Some st' => merge_pages st' rest
      | None => None
      end
  end.

(** [List], lines 428 to 437, for one removed id: the last item is
    moved over the removed one, the slice is cut by one, and the index of
    the item now at that place is recorded. [None] is a panic: an index
    out of range or a nil pointer. *)
Definition remove_item (st : items * index_map) (removedId : string)
  : option (items * index_map) :=
  let '(allItems, idToIndex) := st in
  match idToIndex removedId with
  | None => Some st
  | Some i =>
      match nth_error allItems (length allItems - 1) with
      | None => None
      | Some last =>
          match slice_set allItems i last with
          | None => None
          | Some moved =>
              let cut := firstn (length moved - 1) moved in
              match nth_error cut i with
              | None => None
              | Some None => None
              | Some (Some it) =>
                  Some (cut, index_map_set idToIndex (Id it) i)
              end
          end
      end
  end.

Fixpoint remove_items (st : items * index_map) (removed : list string)
  : option (items * index_map) :=
  match removed with
  | [] => Some st
  | removedId :: rest =>
      match remove_item st removedId with
      | Some st' => remove_items st' rest
      | None => None
      end
  end.

(** The item that the index leads to for an id. *)
Definition item_of (st : items * index_map) (id : string)
  : option HostCatalog :=
  match snd st id with
  | Some i =>
      match nth_error (fst st) i with
      | Some (Some it) => Some it
      | _ => None
      end
  | None => None
  end.

(** The item with the id [id] that comes last in [l]. *)
Definition latest_with_id (id : string) (l : list HostCatalog)
  : option HostCatalog :=
  find (fun it => String.eqb id (Id it)) (rev l).

(** The items and their index agree, but for the ids in [dead]: no item
    is a nil pointer or has an id in [dead], the index leads from the id
    of every item to its place, and every id in the index that is not in
    [dead] leads to an item with that id. *)
Definition indexed (dead : list string) (st : items * index_map) : Prop :=
  (forall i x, nth_error (fst st) i = Some x ->
     exists it, x = Some it /\ snd st (Id it) = Some i /\ ~ In (Id it) dead)
  /\ (forall id i, snd st id = Some i -> ~ In id dead ->
     exists it, nth_error (fst st) i = Some (Some it) /\ Id it = id).

(** A pagination: calls of [ListNextPage], each on the page the one
    before returned, with the pages as they were decoded. *)
Inductive pagination (c : Client) (opt : list Opt)
  : HostCatalogListResult -> list HostCatalogListResult ->
    HostCatalogListResult -> Prop :=
| pagination_last api cur decoded resp next :
    client c = Some api ->
    next_page_request api cur opt = inr (decoded, resp) ->
    ListNextPage c (Some cur) opt = inr next ->
    pagination c opt cur [decoded] next
| pagination_more api cur decoded resp mid rest next :
    client c = Some api ->
    next_page_request api cur opt = inr (decoded, resp) ->
    ListNextPage c (Some cur) opt = inr mid ->
    pagination c opt mid rest next ->
    pagination c opt cur (decoded :: rest) next.

End HostCatalogs.

Arguments Id {ScopeInfo PluginInfo Time JsonObject ActionsMap} h.
Arguments Items {ScopeInfo PluginInfo Time JsonObject ActionsMap Response} h.
Arguments RemovedIds
  {ScopeInfo PluginInfo Time JsonObject ActionsMap Response} h.
Arguments allRemovedIds
  {ScopeInfo PluginInfo Time JsonObject ActionsMap Response} h.
Arguments ListToken
  {ScopeInfo PluginInfo Time JsonObject ActionsMap Response} h.
Arguments ResponseType
  {ScopeInfo PluginInfo Time JsonObject ActionsMap Response} h.
Arguments EstItemCount
  {ScopeInfo PluginInfo Time JsonObject ActionsMap Response} h.
Arguments Response_
  {ScopeInfo PluginInfo Time JsonObject ActionsMap Response} h.
Arguments recursive
  {ScopeInfo PluginInfo Time JsonObject ActionsMap Response} h.
Arguments pageSize
  {ScopeInfo PluginInfo Time JsonObject ActionsMap Response} h.
Arguments scopeId
  {ScopeInfo PluginInfo Time JsonObject ActionsMap Response} h.
Arguments client {ApiClient} c.
Arguments mkClient {ApiClient} client.
Arguments ListNextPage_carry
  {ScopeInfo PluginInfo Time JsonObject ActionsMap Response}
  Compact_rest currentPage nextPage resp.
Arguments ListNextPage
  {ScopeInfo PluginInfo Time JsonObject ActionsMap Response ApiClient Opt}
  next_page_request Compact_rest c currentPage opt.
Arguments pagination
  {ScopeInfo PluginInfo Time JsonObject ActionsMap Response ApiClient Opt}
  next_page_request Compact_rest c opt _ _ _.
Arguments index_items {ScopeInfo PluginInfo Time JsonObject ActionsMap}
  i allItems idToIndex.
Arguments merge_item {ScopeInfo PluginInfo Time JsonObject ActionsMap}
  st item.
Arguments merge_page {ScopeInfo PluginInfo Time JsonObject ActionsMap}
  st page.
Arguments merge_pages {ScopeInfo PluginInfo Time JsonObject ActionsMap}
  st pages.
Arguments remove_item {ScopeInfo PluginInfo Time JsonObject ActionsMap}
  st removedId.
Arguments remove_items {ScopeInfo PluginInfo Time JsonObject ActionsMap}
  st removed.
Arguments item_of {ScopeInfo PluginInfo Time JsonObject ActionsMap} st id.
Arguments latest_with_id {ScopeInfo PluginInfo Time JsonObject ActionsMap}
  id l.
Arguments indexed {ScopeInfo PluginInfo Time JsonObject ActionsMap}
  dead st.


(** ** The streams *)

Section Loopback.

(** The protobuf messages of sdk/pbs/plugin, opaque here. *)
Variables GetObjectResponse PutObjectRequest PutObjectResponse : Type.

(** A Go [interface{}] value by dynamic type: the untyped nil, a
    pointer to one of the protobuf messages ([None]: a nil pointer of
    that type), an [error], or a value of any other type. *)
Inductive any : Type :=
| nil_interface
| of_GetObjectResponse (p : option GetObjectResponse)
| of_PutObjectRequest (p : option PutObjectRequest)
| of_PutObjectResponse (p : option PutObjectResponse)
| of_error (e : error)
| of_other (description : string).

(** [fmt]'s rendering of a value under the verb [%v]. *)
Variable Sprint : any -> string.

Definition quote : string := String (Ascii.ascii_of_nat 34) EmptyString.

(** [fmt.Errorf("stream is closed")] *)
Definition errStreamClosed : error := errorString "stream is closed".

(** [fmt.Errorf(`parameter arg "<arg>" cannot be nil`)] *)
Definition errNilParameter (arg : string) : error :=
  errorString ("parameter arg " ++ quote ++ arg ++ quote ++ " cannot be nil").

(** [fmt.Errorf("invalid argument %v", m)] *)
Definition errInvalidArgument (m : any) : error :=
  errorString ("invalid argument " ++ Sprint m).

(** getObjectStreamResponse, putObjectStreamRequest and
    putObjectStreamResponse: a message pointer and an error. *)
Record envelope (T : Type) : Type := mkEnvelope {
  msg : option T;
  err : option error
}.
Arguments mkEnvelope {T} _ _.
Arguments msg {T} _.
Arguments err {T} _.

Definition getObjectStreamResponse : Type := envelope GetObjectResponse.
Definition putObjectStreamRequest : Type := envelope PutObjectRequest.
Definition putObjectStreamResponse : Type := envelope PutObjectResponse.

(** *** GetObject *)

(** The mutable part of getObjectStream (the mutex is the atomicity of
    [IsStreamClosed] and [Close]; the two facades are
    [newGetObjectStream_client] and [newGetObjectStream_server]). *)
Record getObjectStream : Type := mkGetObjectStream {
  messages : chan getObjectStreamResponse;
  streamClosed : bool
}.

Inductive get_chan : Type := Messages.

Definition get_chan_eq_dec (a b : get_chan) : {a = b} + {a <> b} :=
  match a, b with
  | Messages, Messages => left eq_refl
  end.

#[export] Instance getObject_channels : Channels getObjectStream := {|
  Ch := get_chan;
  Msg := fun _ => getObjectStreamResponse;
  chan_of := fun s _ => messages s;
  Ch_eq_dec := get_chan_eq_dec
|}.

Definition IsStreamClosed (s : getObjectStream)
  : option (getObjectStream * bool) :=
  Some (s, streamClosed s).

Definition Close (s : getObjectStream) : option (getObjectStream * unit) :=
  if streamClosed s then Some (s, tt)
  else match close (messages s) with
       | None => None
       | Some ch => Some (mkGetObjectStream ch true, tt)
       end.

(** A facade holds its end of the channel as the operation it uses it
    for ([<-c.sentFromServer], [s.sendToClient <- v]) and the two
    method values of the stream. *)
Record getObjectClient : Type := mkGetObjectClient {
  gc_sentFromServer :
    prog (St := getObjectStream) (option getObjectStreamResponse);
  gc_closeStream : prog (St := getObjectStream) unit;
  gc_isStreamClosed : prog (St := getObjectStream) bool
}.

Record getObjectServer : Type := mkGetObjectServer {
  gs_sendToClient :
    getObjectStreamResponse -> prog (St := getObjectStream) unit;
  gs_closeStream : prog (St := getObjectStream) unit;
  gs_isStreamClosed : prog (St := getObjectStream) bool
}.

Definition getObjectClient_Recv (c : getObjectClient)
  : prog (St := getObjectStream) (option GetObjectResponse * option error) :=
  r <- gc_sentFromServer c ;;
  match r with
  | None => Ret (None, Some io_EOF)
  | Some resp => Ret (msg resp, err resp)
  end.

Definition getObjectClient_CloseSend (c : getObjectClient)
  : prog (St := getObjectStream) (option error) :=
  isClosed <- gc_isStreamClosed c ;;
  if isClosed : bool then Ret (Some errStreamClosed)
  else gc_closeStream c ;; Ret None.

Definition getObjectClient_SendMsg (c : getObjectClient) (m : any)
  : prog (St := getObjectStream) (option error) := Ret None.

Definition getObjectClient_RecvMsg (c : getObjectClient) (m : any)
  : prog (St := getObjectStream) (option error) := Ret None.

Definition getObjectServer_Send (s : getObjectServer)
    (resp : option GetObjectResponse)
  : prog (St := getObjectStream) (option error) :=
  match resp with
  | None => Ret (Some (errNilParameter "resp GetObjectResponse"))
  | Some _ =>
      isClosed <- gs_isStreamClosed s ;;
      if isClosed : bool then Ret (Some errStreamClosed)
      else gs_sendToClient s (mkEnvelope resp None) ;; Ret None
  end.

Definition getObjectServer_SendMsg (s : getObjectServer) (m : any)
  : prog (St := getObjectStream) (option error) :=
  match m with
  | of_GetObjectResponse msg =>
      isClosed <- gs_isStreamClosed s ;;
      if isClosed : bool then Ret (Some errStreamClosed)
      else gs_sendToClient s (mkEnvelope msg None) ;; Ret None
  | of_error msg =>
      isClosed <- gs_isStreamClosed s ;;
      if isClosed : bool then Ret (Some errStreamClosed)
      else defer (gs_closeStream s)
             (gs_sendToClient s (mkEnvelope None (Some msg)) ;; Ret None)
  | _ => Ret (Some (errInvalidArgument m))
  end.

Definition getObjectServer_RecvMsg (s : getObjectServer) (m : any)
  : prog (St := getObjectStream) (option error) := Ret None.

Definition newGetObjectStream : getObjectStream :=
  mkGetObjectStream make_chan false.

Definition newGetObjectStream_client : getObjectClient := {|
  gc_sentFromServer := chan_recv Messages;
  gc_closeStream := locked Close;
  gc_isStreamClosed := locked IsStreamClosed
|}.

Definition newGetObjectStream_server : getObjectServer := {|
  gs_sendToClient := chan_send Messages;
  gs_closeStream := locked Close;
  gs_isStreamClosed := locked IsStreamClosed
|}.

(** *** PutObject *)

(** The mutable part of putObjectStream. *)
Record putObjectStream : Type := mkPutObjectStream {
  requests : chan putObjectStreamRequest;
  responses : chan putObjectStreamResponse;
  clientClosed : bool;
  serverClosed : bool
}.

Inductive put_chan : Type := Requests | Responses.

Definition put_chan_eq_dec (a b : put_chan) : {a = b} + {a <> b} :=
  match a, b with
  | Requests, Requests => left eq_refl
  | Responses, Responses => left eq_refl
  | Requests, Responses => right (fun e => eq_ind Requests
      (fun c => match c with Requests => True | Responses => False end)
      I Responses e)
  | Responses, Requests => right (fun e => eq_ind Responses
      (fun c => match c with Requests => False | Responses => True end)
      I Requests e)
  end.

Definition put_msg (c : put_chan) : Type :=
  match c with
  | Requests => putObjectStreamRequest
  | Responses => putObjectStreamResponse
  end.

#[export] Instance putObject_channels : Channels putObjectStream := {|
  Ch := put_chan;
  Msg := put_msg;
  chan_of := fun s c =>
    match c return chan (put_msg c) with
    | Requests => requests s
    | Responses => responses s
    end;
  Ch_eq_dec := put_chan_eq_dec
|}.

Definition CloseClient (s : putObjectStream)
  : option (putObjectStream * unit) :=
  if clientClosed s then Some (s, tt)
  else match close (requests s) with
       | None => None
       | Some ch =>
           Some (mkPutObjectStream ch (responses s) true (serverClosed s), tt)
       end.

Definition IsClientClosed (s : putObjectStream)
  : option (putObjectStream * bool) :=
  Some (s, clientClosed s).

Definition CloseServer (s : putObjectStream)
  : option (putObjectStream * unit) :=
  if serverClosed s then Some (s, tt)
  else match close (responses s) with
       | None => None
       | Some ch =>
           Some (mkPutObjectStream (requests s) ch (clientClosed s) true, tt)
       end.

Definition IsServerClosed (s : putObjectStream)
  : option (putObjectStream * bool) :=
  Some (s, serverClosed s).

Record putObjectClient : Type := mkPutObjectClient {
  pc_sendToServer :
    putObjectStreamRequest -> prog (St := putObjectStream) unit;
  pc_sentFromServer :
    prog (St := putObjectStream) (option putObjectStreamResponse);
  pc_closeStream : prog (St := putObjectStream) unit;
  pc_isStreamClosed : prog (St := putObjectStream) bool
}.

Record putObjectServer : Type := mkPutObjectServer {
  ps_sentFromClient :
    prog (St := putObjectStream) (option putObjectStreamRequest);
  ps_sentToClient :
    putObjectStreamResponse -> prog (St := putObjectStream) unit;
  ps_closeStream : prog (St := putObjectStream) unit;
  ps_isStreamClosed : prog (St := putObjectStream) bool
}.

Definition putObjectClient_Send (c : putObjectClient)
    (req : option PutObjectRequest)
  : prog (St := putObjectStream) (option error) :=
  match req with
  | None => Ret (Some (errNilParameter "req PutObjectRequest"))
  | Some _ =>
      isClosed <- pc_isStreamClosed c ;;
      if isClosed : bool then Ret (Some errStreamClosed)
      else pc_sendToServer c (mkEnvelope req None) ;; Ret None
  end.

Definition putObjectClient_CloseAndRecv (c : putObjectClient)
  : prog (St := putObjectStream) (option PutObjectResponse * option error) :=
  pc_closeStream c ;;
  r <- pc_sentFromServer c ;;
  match r with
  | None => Ret (None, Some io_EOF)
  | Some resp => Ret (msg resp, err resp)
  end.

Definition putObjectClient_CloseSend (c : putObjectClient)
  : prog (St := putObjectStream) (option error) :=
  isClosed <- pc_isStreamClosed c ;;
  if isClosed : bool then Ret (Some errStreamClosed)
  else pc_closeStream c ;; Ret None.

Definition putObjectClient_SendMsg (c : putObjectClient) (m : any)
  : prog (St := putObjectStream) (option error) := Ret None.

Definition putObjectClient_RecvMsg (c : putObjectClient) (m : any)
  : prog (St := putObjectStream) (option error) := Ret None.

Definition putObjectServer_SendAndClose (s : putObjectServer)
    (resp : option PutObjectResponse)
  : prog (St := putObjectStream) (option error) :=
  match resp with
  | None => Ret (Some (errNilParameter "resp PutObjectResponse"))
  | Some _ =>
      isClosed <- ps_isStreamClosed s ;;
      if isClosed : bool then Ret (Some errStreamClosed)
      else ps_sentToClient s (mkEnvelope resp None) ;;
           ps_closeStream s ;;
           Ret None
  end.

Definition putObjectServer_Recv (s : putObjectServer)
  : prog (St := putObjectStream) (option PutObjectRequest * option error) :=
  r <- ps_sentFromClient s ;;
  match r with
  | None => Ret (None, Some io_EOF)
  | Some req => Ret (msg req, err req)
  end.

Definition putObjectServer_SendMsg (s : putObjectServer) (m : any)
  : prog (St := putObjectStream) (option error) :=
  match m with
  | of_PutObjectResponse msg =>
      isClosed <- ps_isStreamClosed s ;;
      if isClosed : bool then Ret (Some errStreamClosed)
      else ps_sentToClient s (mkEnvelope msg None) ;; Ret None
  | of_error msg =>
      isClosed <- ps_isStreamClosed s ;;
      if isClosed : bool then Ret (Some errStreamClosed)
      else ps_sentToClient s (mkEnvelope None (Some msg)) ;;
           defer (ps_closeStream s) (Ret None)
  | _ => Ret (Some (errInvalidArgument m))
  end.

Definition putObjectServer_RecvMsg (s : putObjectServer) (m : any)
  : prog (St := putObjectStream) (option error) := Ret None.

Definition newPutObjectStream : putObjectStream :=
  mkPutObjectStream make_chan make_chan false false.

Definition newPutObjectStream_client : putObjectClient := {|
  pc_sendToServer := chan_send Requests;
  pc_sentFromServer := chan_recv Responses;
  pc_closeStream := locked CloseClient;
  pc_isStreamClosed := locked IsClientClosed
|}.

Definition newPutObjectStream_server : putObjectServer := {|
  ps_sentFromClient := chan_recv Requests;
  ps_sentToClient := chan_send Responses;
  ps_closeStream := locked CloseServer;
  ps_isStreamClosed := locked IsServerClosed
|}.

(** *** Callers, invariants and the specification's operations *)

(** The flag of a guard agrees with the run-time state of its channel. *)
Definition get_consistent (s : getObjectStream) : Prop :=
  closed (messages s) = streamClosed s.

Definition put_consistent (s : putObjectStream) : Prop :=
  closed (requests s) = clientClosed s /\ closed (responses s) = serverClosed s.

(** Calls of mutex-protected methods made by any number of goroutines:
    each runs under the mutex, so together they run in some order, one
    after the other. [None]: one of them panicked. *)
Fixpoint run_calls {St : Type} (calls : list (St -> option (St * unit)))
    (s : St) : option St :=
  match calls with
  | [] => Some s
  | f :: rest =>
      match f s with
      | Some (s', _) => run_calls rest s'
      | None => None
      end
  end.

Inductive put_close : Type := callCloseClient | callCloseServer.

Definition put_close_call (c : put_close)
  : putObjectStream -> option (putObjectStream * unit) :=
  match c with
  | callCloseClient => CloseClient
  | callCloseServer => CloseServer
  end.

Definition is_callCloseClient (c : put_close) : bool :=
  match c with callCloseClient => true | callCloseServer => false end.

Definition is_callCloseServer (c : put_close) : bool :=
  match c with callCloseClient => false | callCloseServer => true end.

(** A producer of a download: sends the chunks in order, then closes the
    stream without an error; it returns what each [Send] returned. *)
Fixpoint produce (srv : getObjectServer) (chunks : list GetObjectResponse)
    (acc : list (option error))
  : prog (St := getObjectStream) (list (option error)) :=
  match chunks with
  | [] => gs_closeStream srv ;; Ret acc
  | x :: rest =>
      e <- getObjectServer_Send srv (Some x) ;;
      produce srv rest (acc ++ [e])%list
  end.

(** A consumer of a download: calls [Recv] until it returns an error (at
    most [fuel] times) and returns everything it received. *)
Fixpoint consume (c : getObjectClient) (fuel : nat)
    (acc : list (option GetObjectResponse * option error))
  : prog (St := getObjectStream)
      (list (option GetObjectResponse * option error)) :=
  match fuel with
  | O => Ret acc
  | S n =>
      r <- getObjectClient_Recv c ;;
      match snd r with
      | Some _ => Ret (acc ++ [r])%list
      | None => consume c n (acc ++ [r])%list
      end
  end.

(** What [CloseAndRecv] does with the outcome of its receive. *)
Definition CloseAndRecv_result (m : option putObjectStreamResponse)
  : prog (St := putObjectStream) (option PutObjectResponse * option error) :=
  match m with
  | Some resp => Ret (msg resp, err resp)
  | None => Ret (None, Some io_EOF)
  end.

(** Specification, section 4.2, [Producer.SendError]: "delivers a
    terminal error message then unconditionally closes the stream
    afterward [...]; fails with AlreadyClosed if already closed before
    the attempt". *)
Definition spec_SendError (s : getObjectServer) (e : error)
  : prog (St := getObjectStream) (option error) :=
  isClosed <- gs_isStreamClosed s ;;
  if isClosed : bool then Ret (Some errStreamClosed)
  else gs_sendToClient s (mkEnvelope None (Some e)) ;;
       gs_closeStream s ;;
       Ret None.

(** Specification, section 4.3, [Sender.CompleteWithError]: "delivers a
    terminal error on the response half and closes it, same idempotency
    rule as 4.2's SendError". *)
Definition spec_CompleteWithError (s : putObjectServer) (e : error)
  : prog (St := putObjectStream) (option error) :=
  isClosed <- ps_isStreamClosed s ;;
  if isClosed : bool then Ret (Some errStreamClosed)
  else ps_sentToClient s (mkEnvelope None (Some e)) ;;
       ps_closeStream s ;;
       Ret None.

(** *** Programs that only call the stream's operations *)

Section Respect.
Context {St : Type} {CH : Channels St}.

(** [Inv]: what holds of the stream between atomic sections; [Keeps]:
    how an atomic section may change the stream. *)
Variable Inv : St -> Prop.
Variable Keeps : St -> St -> Prop.

(** Every atomic section of [p], run on a stream satisfying [Inv], does
    not panic, re-establishes [Inv] and changes the stream within
    [Keeps]. *)
Fixpoint respects {R : Type} (p : prog R) : Prop :=
  match p with
  | Ret _ | Panic => True
  | Atomic f k h =>
      (forall s, Inv s ->
         exists s' x, f s = Some (s', x) /\ Inv s' /\ Keeps s s')
      /\ (forall x, respects (k x)) /\ respects h
  | Send _ _ k h => respects k /\ respects h
  | Recv _ k => forall m, respects (k m)
  end.

End Respect.

(** The calls a goroutine can make on a download stream, with the type of
    what each returns: the methods of the two facades and [Close] of the
    stream. *)
Inductive getObject_call : Type -> Type :=
| call_getObjectClient_Recv :
    getObject_call (option GetObjectResponse * option error)
| call_getObjectClient_CloseSend : getObject_call (option error)
| call_getObjectClient_SendMsg (m : any) : getObject_call (option error)
| call_getObjectClient_RecvMsg (m : any) : getObject_call (option error)
| call_getObjectServer_Send (resp : option GetObjectResponse) :
    getObject_call (option error)
| call_getObjectServer_SendMsg (m : any) : getObject_call (option error)
| call_getObjectServer_RecvMsg (m : any) : getObject_call (option error)
| call_getObjectStream_Close : getObject_call unit
| call_getObjectStream_IsStreamClosed : getObject_call bool.

Definition getObject_do {X : Type} (c : getObject_call X)
  : prog (St := getObjectStream) X :=
  match c with
  | call_getObjectClient_Recv =>
      getObjectClient_Recv newGetObjectStream_client
  | call_getObjectClient_CloseSend =>
      getObjectClient_CloseSend newGetObjectStream_client
  | call_getObjectClient_SendMsg m =>
      getObjectClient_SendMsg newGetObjectStream_client m
  | call_getObjectClient_RecvMsg m =>
      getObjectClient_RecvMsg newGetObjectStream_client m
  | call_getObjectServer_Send resp =>
      getObjectServer_Send newGetObjectStream_server resp
  | call_getObjectServer_SendMsg m =>
      getObjectServer_SendMsg newGetObjectStream_server m
  | call_getObjectServer_RecvMsg m =>
      getObjectServer_RecvMsg newGetObjectStream_server m
  | call_getObjectStream_Close => locked Close
  | call_getObjectStream_IsStreamClosed => locked IsStreamClosed
  end.

(** A goroutine that touches the download stream through these calls
    only; what it calls next may depend on what the calls returned. *)
Inductive getObject_caller : forall {R : Type},
    prog (St := getObjectStream) R -> Prop :=
| getObject_caller_done {R : Type} (r : R) : getObject_caller (Ret r)
| getObject_caller_call {R X : Type} (c : getObject_call X)
    (k : X -> prog (St := getObjectStream) R) :
    (forall x, getObject_caller (k x)) ->
    getObject_caller (x <- getObject_do c ;; k x).

(** The calls a goroutine can make on an upload stream. *)
Inductive putObject_call : Type -> Type :=
| call_putObjectClient_Send (req : option PutObjectRequest) :
    putObject_call (option error)
| call_putObjectClient_CloseAndRecv :
    putObject_call (option PutObjectResponse * option error)
| call_putObjectClient_CloseSend : putObject_call (option error)
| call_putObjectClient_SendMsg (m : any) : putObject_call (option error)
| call_putObjectClient_RecvMsg (m : any) : putObject_call (option error)
| call_putObjectServer_SendAndClose (resp : option PutObjectResponse) :
    putObject_call (option error)
| call_putObjectServer_Recv :
    putObject_call (option PutObjectRequest * option error)
| call_putObjectServer_SendMsg (m : any) : putObject_call (option error)
| call_putObjectServer_RecvMsg (m : any) : putObject_call (option error)
| call_putObjectStream_CloseClient : putObject_call unit
| call_putObjectStream_IsClientClosed : putObject_call bool
| call_putObjectStream_CloseServer : putObject_call unit
| call_putObjectStream_IsServerClosed : putObject_call bool.

Definition putObject_do {X : Type} (c : putObject_call X)
  : prog (St := putObjectStream) X :=
  match c with
  | call_putObjectClient_Send req =>
      putObjectClient_Send newPutObjectStream_client req
  | call_putObjectClient_CloseAndRecv =>
      putObjectClient_CloseAndRecv newPutObjectStream_client
  | call_putObjectClient_CloseSend =>
      putObjectClient_CloseSend newPutObjectStream_client
  | call_putObjectClient_SendMsg m =>
      putObjectClient_SendMsg newPutObjectStream_client m
  | call_putObjectClient_RecvMsg m =>
      putObjectClient_RecvMsg newPutObjectStream_client m
  | call_putObjectServer_SendAndClose resp =>
      putObjectServer_SendAndClose newPutObjectStream_server resp
  | call_putObjectServer_Recv =>
      putObjectServer_Recv newPutObjectStream_server
  | call_putObjectServer_SendMsg m =>
      putObjectServer_SendMsg newPutObjectStream_server m
  | call_putObjectServer_RecvMsg m =>
      putObjectServer_RecvMsg newPutObjectStream_server m
  | call_putObjectStream_CloseClient => locked CloseClient
  | call_putObjectStream_IsClientClosed => locked IsClientClosed
  | call_putObjectStream_CloseServer => locked CloseServer
  | call_putObjectStream_IsServerClosed => locked IsServerClosed
  end.

Inductive putObject_caller : forall {R : Type},
    prog (St := putObjectStream) R -> Prop :=
| putObject_caller_done {R : Type} (r : R) : putObject_caller (Ret r)
| putObject_caller_call {R X : Type} (c : putObject_call X)
    (k : X -> prog (St := putObjectStream) R) :
    (forall x, putObject_caller (k x)) ->
    putObject_caller (x <- putObject_do c ;; k x).

(** A closed flag that is set stays set. *)
Definition get_stays_closed (s s' : getObjectStream) : Prop :=
  streamClosed s = true -> streamClosed s' = true.

Definition put_stays_closed (s s' : putObjectStream) : Prop :=
  (clientClosed s = true -> clientClosed s' = true)
  /\ (serverClosed s = true -> serverClosed s' = true).

(** An uploading client: sends the chunks in order with [Send], then
    calls [CloseAndRecv]; it returns what each [Send] returned and what
    [CloseAndRecv] returned. *)
Fixpoint upload (c : putObjectClient) (chunks : list PutObjectRequest)
    (acc : list (option error))
  : prog (St := putObjectStream)
      (list (option error) * (option PutObjectResponse * option error)) :=
  match chunks with
  | [] => r <- putObjectClient_CloseAndRecv c ;; Ret (acc, r)
  | x :: rest =>
      e <- putObjectClient_Send c (Some x) ;;
      upload c rest (acc ++ [e])%list
  end.

(** A storing server: calls [Recv] until it returns an error (at most
    [fuel] times), then answers with [SendAndClose]; it returns
    everything it received and what [SendAndClose] returned ([None] if it
    ran out of fuel before the answer). *)
Fixpoint store (s : putObjectServer) (fuel : nat)
    (answer : option PutObjectResponse)
    (acc : list (option PutObjectRequest * option error))
  : prog (St := putObjectStream)
      (list (option PutObjectRequest * option error)
       * option (option error)) :=
  match fuel with
  | O => Ret (acc, None)
  | S n =>
      r <- putObjectServer_Recv s ;;
      match snd r with
      | Some _ =>
          e <- putObjectServer_SendAndClose s answer ;;
          Ret ((acc ++ [r])%list, Some e)
      | None => store s n answer (acc ++ [r])%list
      end
  end.


(** *** What a program sends *)

Section Offers.
Context {St : Type} {CH : Channels St}.

Variable Good : forall c : Ch, Msg c -> Prop.

(** Every value that [p] may send on a channel is [Good] for it. *)
Fixpoint offers {R : Type} (p : prog R) : Prop :=
  match p with
  | Ret _ | Panic => True
  | Atomic _ k h => (forall x, offers (k x)) /\ offers h
  | Send c v k h => Good c v /\ offers k /\ offers h
  | Recv _ k => forall m, offers (k m)
  end.

End Offers.

(** On the request channel: a request that is not nil, and no error. *)
Definition put_request_only (c : put_chan) : put_msg c -> Prop :=
  match c return put_msg c -> Prop with
  | Requests => fun v => exists req, v = mkEnvelope (Some req) None
  | Responses => fun _ => True
  end.

(** ** Facts about the machine *)

Section MachineFacts.
Context {St : Type} {CH : Channels St}.

(** [exec] follows [local]: internal steps do not change its result, a
    send on an open channel is taken, a receive on an open channel waits. *)
Lemma exec_local {R : Type} (s : St) (p : prog R) :
  exec s p
  = match local s p with
    | Tau s' p' => exec s' p'
    | Sending c v p' =>
        let '(s', tr, o) := exec s p' in (s', Handoff c v :: tr, o)
    | Receiving c k => (s, [], Awaiting c k)
    | Halted =>
        (s, [], match p with Ret r => Returned r | _ => Panicked end)
    end.
Proof.
  destruct p as [r | | X f k h | c v k h | c k]; simpl; try reflexivity.
  - destruct (f s) as [[s' x] |]; reflexivity.
  - destruct (closed (chan_of s c)); reflexivity.
  - destruct (closed (chan_of s c)); reflexivity.
Qed.

Lemma meet_same {A B : Type} (s : St) (p : prog A) (q : prog B) c v p' k :
  local s p = Sending c v p' -> local s q = Receiving c k ->
  meet s p q = [(p', k (Some v))].
Proof.
  intros Hp Hq. unfold meet. rewrite Hp, Hq.
  destruct (Ch_eq_dec c c) as [e | n]; [| congruence].
  rewrite (UIP_dec Ch_eq_dec e eq_refl). reflexivity.
Qed.

Lemma meet_inv {A B : Type} (s : St) (p : prog A) (q : prog B) pq :
  In pq (meet s p q) ->
  exists c v p' k,
    local s p = Sending c v p' /\ local s q = Receiving c k /\
    pq = (p', k (Some v)).
Proof.
  unfold meet.
  destruct (local s p) as [ | c v p' | | ] eqn:Hp; try contradiction.
  destruct (local s q) as [ | | c' k | ] eqn:Hq; try contradiction.
  destruct (Ch_eq_dec c c') as [e | n]; [| contradiction].
  subst c'. simpl. intros [<- | []].
  exists c, v, p', k. auto.
Qed.

Lemma step_succs {A B : Type} (cfg cfg' : config A B) :
  step cfg cfg' <-> In cfg' (succs cfg).
Proof.
  split.
  - intros H. destruct H as [s p q s' p' H | s p q s' q' H
                            | s p q c v p' k Hp Hq | s p q c v q' k Hq Hp];
      unfold succs, tau_of.
    + rewrite H. simpl. auto.
    + rewrite H. apply in_or_app. right. simpl. auto.
    + apply in_or_app. right. apply in_or_app. right. apply in_or_app. left.
      rewrite (meet_same _ _ _ _ _ _ _ Hp Hq). simpl. auto.
    + apply in_or_app. right. apply in_or_app. right. apply in_or_app. right.
      rewrite (meet_same _ _ _ _ _ _ _ Hq Hp). simpl. auto.
  - destruct cfg as [[s p] q]. unfold succs, tau_of. intros H.
    apply in_app_or in H. destruct H as [H | H].
    { destruct (local s p) eqn:Hp; try contradiction.
      destruct H as [<- | []]. simpl. now apply step_server. }
    apply in_app_or in H. destruct H as [H | H].
    { destruct (local s q) eqn:Hq; try contradiction.
      destruct H as [<- | []]. simpl. now apply step_client. }
    apply in_app_or in H. destruct H as [H | H].
    { apply in_map_iff in H. destruct H as [pq [<- H]].
      apply meet_inv in H. destruct H as (c & v & p' & k & Hp & Hq & ->).
      simpl. now apply step_to_client with (c := c). }
    { apply in_map_iff in H. destruct H as [pq [<- H]].
      apply meet_inv in H. destruct H as (c & v & p' & k & Hp & Hq & ->).
      simpl. now apply step_to_server with (c := c). }
Qed.

Lemma always_ends_weaken {A B : Type} (P Q : config A B -> Prop) cfg :
  (forall c, P c -> Q c) -> always_ends P cfg -> always_ends Q cfg.
Proof.
  intros HPQ H. induction H as [cfg Ht HP | cfg Hex _ IH].
  - apply ends_here; auto.
  - apply ends_later; auto.
Qed.

Lemma terminal_no_step {A B : Type} (cfg cfg' : config A B) :
  terminal cfg = true -> ~ step cfg cfg'.
Proof.
  destruct cfg as [[s p] q]. simpl. intros Ht H.
  apply andb_prop in Ht. destruct Ht as [Hp Hq].
  apply step_succs in H. unfold succs, tau_of, meet in H.
  destruct p; try discriminate; destruct q; try discriminate; simpl in H;
    contradiction.
Qed.

(** Under [always_ends P], every run that can go no further has reached a
    terminal configuration satisfying [P]. *)
Lemma always_ends_sound {A B : Type} (P : config A B -> Prop) cfg cfg' :
  always_ends P cfg -> steps cfg cfg' ->
  (forall cfg'', ~ step cfg' cfg'') ->
  terminal cfg' = true /\ P cfg'.
Proof.
  intros H Hs. revert H.
  induction Hs as [cfg | cfg1 cfg2 cfg3 H12 _ IH]; intros H Hstuck.
  - destruct H as [cfg Ht HP | cfg [c' Hc'] _]; [auto |].
    exfalso. exact (Hstuck _ Hc').
  - destruct H as [cfg1 Ht HP | cfg1 _ Hall].
    + exfalso. exact (terminal_no_step _ _ Ht H12).
    + apply IH; auto.
Qed.

(** Under [always_ends P], some run does reach such a configuration. *)
Lemma always_ends_reaches {A B : Type} (P : config A B -> Prop) cfg :
  always_ends P cfg ->
  exists cfg', steps cfg cfg' /\ terminal cfg' = true /\ P cfg'.
Proof.
  intros H. induction H as [cfg Ht HP | cfg [c' Hc'] _ IH].
  - exists cfg. split; [apply steps_refl | auto].
  - destruct (IH _ Hc') as (cfg' & Hs & Ht & HP).
    exists cfg'. split; [eapply steps_cons; eauto | auto].
Qed.

End MachineFacts.

(** One step of exploration of a concrete configuration: it has a
    successor, and the goal is left for each of its successors. *)
Ltac explore :=
  apply ends_later;
  [ eexists; apply step_succs; cbn; left; reflexivity
  | let cfg' := fresh "cfg" in
    let H := fresh "Hstep" in
    intros cfg' H; apply step_succs in H; cbn in H;
    repeat (destruct H as [<- | H]); try contradiction ].

(** Exploration of every run of a concrete configuration to its end. *)
Ltac explore_all :=
  repeat first
    [ solve [ apply ends_here; [ reflexivity | cbn; auto ] ]
    | explore ].

(** ** Properties of single operations *)

Lemma get_consistent_cases (g : getObjectStream) :
  get_consistent g ->
  g = mkGetObjectStream (mkChan false) false \/
  g = mkGetObjectStream (mkChan true) true.
Proof.
  destruct g as [[c] f]. unfold get_consistent. simpl. intros ->.
  destruct f; auto.
Qed.

Lemma put_consistent_shape (p : putObjectStream) :
  put_consistent p ->
  p = mkPutObjectStream (mkChan (clientClosed p)) (mkChan (serverClosed p))
        (clientClosed p) (serverClosed p).
Proof.
  destruct p as [[rq] [rs] cc sc]. unfold put_consistent. simpl.
  intros [-> ->]. reflexivity.
Qed.

(** C7. Whatever the state of the stream and whatever the facade, [Send]
    of the download server, [Send] of the upload client and
    [SendAndClose] of the upload server fail on a nil payload with the
    invalid-argument error "parameter arg ... cannot be nil"; the call
    returns at once, takes no step on the stream, hands nothing off on any
    channel and leaves the stream, closed flags included, as it was. *)
Theorem nil_payload_rejected_without_effect
    (g : getObjectStream) (p : putObjectStream)
    (gs : getObjectServer) (pc : putObjectClient) (ps : putObjectServer) :
  exec g (getObjectServer_Send gs None)
    = (g, [], Returned (Some (errNilParameter "resp GetObjectResponse")))
  /\ exec p (putObjectClient_Send pc None)
    = (p, [], Returned (Some (errNilParameter "req PutObjectRequest")))
  /\ exec p (putObjectServer_SendAndClose ps None)
    = (p, [], Returned (Some (errNilParameter "resp PutObjectResponse")))
  /\ local g (getObjectServer_Send gs None) = Halted
  /\ local p (putObjectClient_Send pc None) = Halted
  /\ local p (putObjectServer_SendAndClose ps None) = Halted.
Proof. repeat split. Qed.

(** C6. On a half whose closed flag is set, [Send] of the download
    server, [Send] of the upload client and [SendAndClose] of the upload
    server, called with a non-nil payload, return the error "stream is
    closed" after the single step that reads the flag: nothing is handed
    off on a channel, the call never waits in a send, and the stream is
    unchanged. *)
Theorem payload_on_closed_half_is_rejected
    (g : getObjectStream) (p q : putObjectStream)
    (x : GetObjectResponse) (y : PutObjectRequest) (z : PutObjectResponse)
    (Hg : streamClosed g = true)
    (Hp : clientClosed p = true)
    (Hq : serverClosed q = true) :
  exec g (getObjectServer_Send newGetObjectStream_server (Some x))
    = (g, [], Returned (Some errStreamClosed))
  /\ exec p (putObjectClient_Send newPutObjectStream_client (Some y))
    = (p, [], Returned (Some errStreamClosed))
  /\ exec q (putObjectServer_SendAndClose newPutObjectStream_server (Some z))
    = (q, [], Returned (Some errStreamClosed))
  /\ local g (getObjectServer_Send newGetObjectStream_server (Some x))
    = Tau g (Ret (Some errStreamClosed))
  /\ local p (putObjectClient_Send newPutObjectStream_client (Some y))
    = Tau p (Ret (Some errStreamClosed))
  /\ local q (putObjectServer_SendAndClose newPutObjectStream_server (Some z))
    = Tau q (Ret (Some errStreamClosed)).
Proof.
  cbn. rewrite Hg, Hp, Hq. repeat split.
Qed.

(** C8. [CloseSend] of the download client and of the upload client
    returns the error "stream is closed" when its half is already closed
    and leaves the stream as it is; on an open half it returns nil and
    closes the half (flag and channel), also when another goroutine closes
    the half between the check and the close, and a receive on the closed
    half ([Recv] of the download client, [Recv] of the upload server) then
    returns (nil, io.EOF) without waiting. *)
Theorem CloseSend_fails_if_closed_else_closes
    (g : getObjectStream) (p : putObjectStream)
    (Hg : get_consistent g) (Hp : put_consistent p) :
  (streamClosed g = true ->
     exec g (getObjectClient_CloseSend newGetObjectStream_client)
       = (g, [], Returned (Some errStreamClosed)))
  /\ (streamClosed g = false ->
     exists g',
       exec g (getObjectClient_CloseSend newGetObjectStream_client)
         = (g', [], Returned None)
       /\ streamClosed g' = true /\ closed (messages g') = true
       /\ exec g' (getObjectClient_Recv newGetObjectStream_client)
         = (g', [], Returned (None, Some io_EOF)))
  /\ (exists g',
       exec g (gc_closeStream newGetObjectStream_client ;; Ret None)
         = (g', [], Returned (@None error))
       /\ streamClosed g' = true /\ closed (messages g') = true)
  /\ (clientClosed p = true ->
     exec p (putObjectClient_CloseSend newPutObjectStream_client)
       = (p, [], Returned (Some errStreamClosed)))
  /\ (clientClosed p = false ->
     exists p',
       exec p (putObjectClient_CloseSend newPutObjectStream_client)
         = (p', [], Returned None)
       /\ clientClosed p' = true /\ closed (requests p') = true
       /\ exec p' (putObjectServer_Recv newPutObjectStream_server)
         = (p', [], Returned (None, Some io_EOF)))
  /\ (exists p',
       exec p (pc_closeStream newPutObjectStream_client ;; Ret None)
         = (p', [], Returned (@None error))
       /\ clientClosed p' = true /\ closed (requests p') = true).
Proof.
  destruct (get_consistent_cases g Hg) as [-> | ->];
    rewrite (put_consistent_shape p Hp);
    destruct (clientClosed p), (serverClosed p); cbn;
    repeat split; try discriminate; intros; eexists; repeat split.
Qed.

(** C9. On a consistent upload stream whose response half is open,
    [SendAndClose] with a non-nil payload that is taken by the client
    hands off exactly that payload on the response channel, returns nil
    and closes the response half only: afterwards [IsServerClosed] is
    true, while the flag [clientClosed] and the request channel are what
    they were. [CloseServer] and [CloseClient] each leave the other half
    untouched. *)
Theorem SendAndClose_closes_response_half_only
    (p : putObjectStream) (r : PutObjectResponse)
    (Hp : put_consistent p) (Hopen : serverClosed p = false) :
  (exists p',
     exec p (putObjectServer_SendAndClose newPutObjectStream_server (Some r))
       = (p', [Handoff Responses (mkEnvelope (Some r) None)], Returned None)
     /\ IsServerClosed p' = Some (p', true)
     /\ closed (responses p') = true
     /\ clientClosed p' = clientClosed p
     /\ requests p' = requests p)
  /\ (forall s s' : putObjectStream, CloseServer s = Some (s', tt) ->
        clientClosed s' = clientClosed s /\ requests s' = requests s)
  /\ (forall s s' : putObjectStream, CloseClient s = Some (s', tt) ->
        serverClosed s' = serverClosed s /\ responses s' = responses s).
Proof.
  split; [| split].
  - rewrite (put_consistent_shape p Hp). rewrite Hopen.
    destruct (clientClosed p); cbn; eexists; repeat split.
  - intros s s'. unfold CloseServer.
    destruct (serverClosed s); [intros [= <-]; auto |].
    destruct (close (responses s)); [intros [= <-]; auto | discriminate].
  - intros s s'. unfold CloseClient.
    destruct (clientClosed s); [intros [= <-]; auto |].
    destruct (close (requests s)); [intros [= <-]; auto | discriminate].
Qed.

(** C3. When [SendMsg] of either server, given an error, returns nil, the
    half was open, the error was handed off on its channel, and the half
    is closed when the call returns: the closed query ([IsStreamClosed],
    [IsServerClosed]) answers true and a receive on the half ([Recv] of
    the download client, [CloseAndRecv] of the upload client) returns
    (nil, io.EOF) without waiting. On an open half the call does return
    nil once the client has taken the error: run against a client that
    receives twice, it always ends with nil for the server, the error for
    the first receive and (nil, io.EOF) for the second, and the half
    closed. *)
Theorem error_delivery_closes_the_half
    (g : getObjectStream) (p : putObjectStream) (e : error)
    (Hg : get_consistent g) (Hp : put_consistent p) :
  (forall g' tr,
     exec g (getObjectServer_SendMsg newGetObjectStream_server (of_error e))
       = (g', tr, Returned None) ->
     streamClosed g = false
     /\ tr = [Handoff (St := getObjectStream) Messages
                (mkEnvelope None (Some e))]
     /\ IsStreamClosed g' = Some (g', true)
     /\ exec g' (getObjectClient_Recv newGetObjectStream_client)
        = (g', [], Returned (None, Some io_EOF)))
  /\ (streamClosed g = false ->
      (exists g' tr,
         exec g (getObjectServer_SendMsg newGetObjectStream_server (of_error e))
           = (g', tr, Returned None))
      /\ always_ends
           (fun cfg =>
              cfg = (mkGetObjectStream (mkChan true) true,
                     Ret None,
                     Ret ((None, Some e), (None, Some io_EOF))))
           (g,
            getObjectServer_SendMsg newGetObjectStream_server (of_error e),
            r1 <- getObjectClient_Recv newGetObjectStream_client ;;
            r2 <- getObjectClient_Recv newGetObjectStream_client ;;
            Ret (r1, r2)))
  /\ (forall p' tr,
     exec p (putObjectServer_SendMsg newPutObjectStream_server (of_error e))
       = (p', tr, Returned None) ->
     serverClosed p = false
     /\ tr = [Handoff (St := putObjectStream) Responses
                (mkEnvelope None (Some e))]
     /\ IsServerClosed p' = Some (p', true)
     /\ exists p'',
        exec p' (putObjectClient_CloseAndRecv newPutObjectStream_client)
        = (p'', [], Returned (None, Some io_EOF)))
  /\ (serverClosed p = false ->
      (exists p' tr,
         exec p (putObjectServer_SendMsg newPutObjectStream_server (of_error e))
           = (p', tr, Returned None))
      /\ always_ends
           (fun cfg =>
              cfg = (mkPutObjectStream (mkChan true) (mkChan true) true true,
                     Ret None,
                     Ret ((None, Some e), (None, Some io_EOF))))
           (p,
            putObjectServer_SendMsg newPutObjectStream_server (of_error e),
            r1 <- putObjectClient_CloseAndRecv newPutObjectStream_client ;;
            r2 <- putObjectClient_CloseAndRecv newPutObjectStream_client ;;
            Ret (r1, r2))).
Proof.
  destruct (get_consistent_cases g Hg) as [-> | ->];
    rewrite (put_consistent_shape p Hp);
    destruct (clientClosed p), (serverClosed p);
    repeat match goal with |- _ /\ _ => split end;
    try (cbn; discriminate);
    try (intros _; split; [do 2 eexists; reflexivity | explore_all]);
    cbn; intros s' tr H; injection H as <- <-; cbn;
    repeat match goal with |- _ /\ _ => split end;
    try reflexivity; eexists; reflexivity.
Qed.

(** ** Closing *)

Lemma Close_closed (g : getObjectStream) :
  streamClosed g = true -> Close g = Some (g, tt).
Proof. unfold Close. intros ->. reflexivity. Qed.

Lemma CloseClient_closed (p : putObjectStream) :
  clientClosed p = true -> CloseClient p = Some (p, tt).
Proof. unfold CloseClient. intros ->. reflexivity. Qed.

Lemma CloseServer_closed (p : putObjectStream) :
  serverClosed p = true -> CloseServer p = Some (p, tt).
Proof. unfold CloseServer. intros ->. reflexivity. Qed.

Lemma Close_consistent (g : getObjectStream) :
  get_consistent g ->
  Close g = Some (mkGetObjectStream (mkChan true) true, tt).
Proof.
  intros Hg. destruct (get_consistent_cases g Hg) as [-> | ->]; reflexivity.
Qed.

Lemma run_calls_Close (n : nat) (g : getObjectStream) :
  streamClosed g = true -> run_calls (repeat Close n) g = Some g.
Proof.
  intros Hg. induction n as [| n IH]; simpl; [reflexivity |].
  rewrite (Close_closed g Hg). exact IH.
Qed.

Lemma put_close_call_consistent (c : put_close) (p : putObjectStream) :
  put_consistent p ->
  put_close_call c p
  = Some (mkPutObjectStream
            (mkChan (clientClosed p || is_callCloseClient c))
            (mkChan (serverClosed p || is_callCloseServer c))
            (clientClosed p || is_callCloseClient c)
            (serverClosed p || is_callCloseServer c), tt).
Proof.
  intros Hp. rewrite (put_consistent_shape p Hp).
  destruct c, (clientClosed p), (serverClosed p); reflexivity.
Qed.

Lemma run_put_close_calls (calls : list put_close) (p : putObjectStream) :
  put_consistent p ->
  run_calls (map put_close_call calls) p
  = Some (mkPutObjectStream
            (mkChan (clientClosed p || existsb is_callCloseClient calls))
            (mkChan (serverClosed p || existsb is_callCloseServer calls))
            (clientClosed p || existsb is_callCloseClient calls)
            (serverClosed p || existsb is_callCloseServer calls)).
Proof.
  revert p. induction calls as [| c calls IH]; intros p Hp; simpl.
  - rewrite !orb_false_r. f_equal. exact (put_consistent_shape p Hp).
  - rewrite (put_close_call_consistent c p Hp).
    rewrite IH by (split; reflexivity). simpl.
    rewrite !orb_assoc. reflexivity.
Qed.

(** The consistent streams are the ones reached from a new stream by
    calls of the close methods. *)
Lemma get_consistent_reachable (g : getObjectStream) :
  get_consistent g <->
  exists n, run_calls (repeat Close n) newGetObjectStream = Some g.
Proof.
  split.
  - intros Hg. destruct (get_consistent_cases g Hg) as [-> | ->];
      [exists 0 | exists 1]; reflexivity.
  - intros [[| n] H].
    + injection H as <-. reflexivity.
    + simpl in H. rewrite run_calls_Close in H by reflexivity.
      injection H as <-. reflexivity.
Qed.

Lemma put_consistent_reachable (p : putObjectStream) :
  put_consistent p <->
  exists calls,
    run_calls (map put_close_call calls) newPutObjectStream = Some p.
Proof.
  split.
  - intros Hp. rewrite (put_consistent_shape p Hp).
    destruct (clientClosed p), (serverClosed p).
    + exists [callCloseClient; callCloseServer]. reflexivity.
    + exists [callCloseClient]. reflexivity.
    + exists [callCloseServer]. reflexivity.
    + exists []. reflexivity.
  - intros [calls H].
    rewrite run_put_close_calls in H by (split; reflexivity).
    injection H as <-. split; reflexivity.
Qed.

(** C2. On a stream whose flags agree with its channels, any number of
    calls of [Close] (at least one), and any sequence of calls of
    [CloseClient] and [CloseServer], run without a panic. After them the
    channel of every half that was closed by a call is closed and its
    closed query answers true. A call on a half whose flag is set returns
    the stream unchanged, so the channel is closed by the first call only:
    another [close] of it would be the run-time panic. *)
Theorem closing_is_idempotent
    (g : getObjectStream) (p : putObjectStream)
    (Hg : get_consistent g) (Hp : put_consistent p) :
  (forall n,
     run_calls (repeat Close (S n)) g
       = Some (mkGetObjectStream (mkChan true) true)
     /\ run_calls (repeat Close (S n)) g = run_calls [Close] g)
  /\ IsStreamClosed (mkGetObjectStream (mkChan true) true)
     = Some (mkGetObjectStream (mkChan true) true, true)
  /\ (forall g' : getObjectStream,
        streamClosed g' = true -> Close g' = Some (g', tt))
  /\ (forall g' : getObjectStream,
        get_consistent g' -> streamClosed g' = true ->
        close (messages g') = None)
  /\ (forall calls,
        exists p',
          run_calls (map put_close_call calls) p = Some p'
          /\ put_consistent p'
          /\ IsClientClosed p'
             = Some (p', clientClosed p || existsb is_callCloseClient calls)
          /\ IsServerClosed p'
             = Some (p', serverClosed p || existsb is_callCloseServer calls)
          /\ requests p'
             = mkChan (clientClosed p || existsb is_callCloseClient calls)
          /\ responses p'
             = mkChan (serverClosed p || existsb is_callCloseServer calls))
  /\ (forall p' : putObjectStream,
        clientClosed p' = true -> CloseClient p' = Some (p', tt))
  /\ (forall p' : putObjectStream,
        serverClosed p' = true -> CloseServer p' = Some (p', tt)).
Proof.
  repeat match goal with |- _ /\ _ => split end.
  - intros n.
    assert (H : run_calls (repeat Close (S n)) g
                = Some (mkGetObjectStream (mkChan true) true)).
    { simpl. rewrite (Close_consistent g Hg).
      apply run_calls_Close. reflexivity. }
    split; [exact H |].
    rewrite H. simpl. rewrite (Close_consistent g Hg). reflexivity.
  - reflexivity.
  - exact Close_closed.
  - intros g' Hg' Hc. unfold get_consistent in Hg'. unfold close.
    rewrite Hg', Hc. reflexivity.
  - intros calls. eexists.
    split; [apply (run_put_close_calls calls p Hp) |].
    repeat split.
  - exact CloseClient_closed.
  - exact CloseServer_closed.
Qed.

(** ** Two goroutines on one stream *)

Lemma upload_completion (p : putObjectStream) (r : PutObjectResponse) :
  put_consistent p -> serverClosed p = false ->
  always_ends
    (fun cfg =>
       cfg = (mkPutObjectStream (mkChan true) (mkChan true) true true,
              Ret None, Ret (Some r, None)))
    (p,
     putObjectServer_SendAndClose newPutObjectStream_server (Some r),
     putObjectClient_CloseAndRecv newPutObjectStream_client).
Proof.
  intros Hp Hs. rewrite (put_consistent_shape p Hp). rewrite Hs.
  destruct (clientClosed p); explore_all.
Qed.

Lemma download_run (chunks : list GetObjectResponse) :
  forall (fuel : nat) (sent : list (option error))
         (got : list (option GetObjectResponse * option error)),
    length chunks < fuel ->
    always_ends
      (fun cfg =>
         cfg = (mkGetObjectStream (mkChan true) true,
                Ret (sent ++ repeat None (length chunks))%list,
                Ret (got ++ map (fun x => (Some x, None)) chunks
                         ++ [(None, Some io_EOF)])%list))
      (newGetObjectStream,
       produce newGetObjectStream_server chunks sent,
       consume newGetObjectStream_client fuel got).
Proof.
  induction chunks as [| x rest IH]; intros fuel sent got Hfuel;
    (destruct fuel as [| n]; [inversion Hfuel |]).
  - simpl repeat. simpl map. rewrite app_nil_r. explore_all.
  - explore. explore.
    eapply always_ends_weaken; [| apply (IH n); simpl in Hfuel; lia].
    intros c ->. simpl. rewrite <- !app_assoc. reflexivity.
Qed.

(** C4. A producer that sends the chunks [chunks] with [Send] and then
    closes the download stream, running against a consumer that calls
    [Recv] until it gets an error, always comes to an end, whatever the
    interleaving: every [Send] has returned nil, and the consumer has
    received exactly the chunks, in the order sent, each with a nil error,
    followed by one (nil, io.EOF). Such a run exists, and every run that
    can go no further has ended this way. *)
Theorem download_delivers_in_order
    (chunks : list GetObjectResponse) (fuel : nat)
    (Hfuel : length chunks < fuel) :
  let start := (newGetObjectStream,
                produce newGetObjectStream_server chunks [],
                consume newGetObjectStream_client fuel []) in
  let final := (mkGetObjectStream (mkChan true) true,
                Ret (repeat None (length chunks)),
                Ret (map (fun x => (Some x, None)) chunks
                       ++ [(None, Some io_EOF)])%list) in
  always_ends (fun cfg => cfg = final) start
  /\ steps start final
  /\ (forall cfg, steps start cfg -> (forall cfg', ~ step cfg cfg') ->
                  cfg = final).
Proof.
  intros start final.
  assert (H : always_ends (fun cfg => cfg = final) start)
    by exact (download_run chunks fuel [] [] Hfuel).
  split; [exact H |]. split.
  - destruct (always_ends_reaches _ _ H) as (cfg & Hs & _ & ->). exact Hs.
  - intros cfg Hs Hstuck.
    exact (proj2 (always_ends_sound _ _ _ H Hs Hstuck)).
Qed.

(** C5. [CloseAndRecv] first closes the request half, then waits for a
    message on the response half. Run against a server that calls
    [SendAndClose] with the payload [r], it always returns (r, nil);
    run against a server end that closes the response half without
    sending, or called when that half is already closed, it returns
    (nil, io.EOF). *)
Theorem CloseAndRecv_returns_terminal_message
    (p q : putObjectStream) (r : PutObjectResponse)
    (Hp : put_consistent p) (Hopen : serverClosed p = false)
    (Hq : put_consistent q) (Hclosed : serverClosed q = true) :
  (exists p',
     exec p (putObjectClient_CloseAndRecv newPutObjectStream_client)
       = (p', [], Awaiting Responses CloseAndRecv_result)
     /\ clientClosed p' = true /\ closed (requests p') = true
     /\ serverClosed p' = false)
  /\ always_ends
       (fun cfg =>
          cfg = (mkPutObjectStream (mkChan true) (mkChan true) true true,
                 Ret None, Ret (Some r, None)))
       (p,
        putObjectServer_SendAndClose newPutObjectStream_server (Some r),
        putObjectClient_CloseAndRecv newPutObjectStream_client)
  /\ always_ends
       (fun cfg =>
          cfg = (mkPutObjectStream (mkChan true) (mkChan true) true true,
                 Ret tt, Ret (None, Some io_EOF)))
       (p,
        ps_closeStream newPutObjectStream_server,
        putObjectClient_CloseAndRecv newPutObjectStream_client)
  /\ exec q (putObjectClient_CloseAndRecv newPutObjectStream_client)
     = (mkPutObjectStream (mkChan true) (mkChan true) true true, [],
        Returned (None, Some io_EOF)).
Proof.
  repeat match goal with |- _ /\ _ => split end.
  - rewrite (put_consistent_shape p Hp). rewrite Hopen.
    destruct (clientClosed p); cbn; eexists; repeat split.
  - exact (upload_completion p r Hp Hopen).
  - rewrite (put_consistent_shape p Hp). rewrite Hopen.
    destruct (clientClosed p); explore_all.
  - rewrite (put_consistent_shape q Hq). rewrite Hclosed.
    destruct (clientClosed q); reflexivity.
Qed.

(** C10. On an upload stream whose request half is already closed,
    [CloseSend] fails with "stream is closed", but [CloseAndRecv] does
    not: its close of the request half changes nothing and it goes on to
    the response half, where it waits for the terminal message if that
    half is open (and returns the payload of a server's [SendAndClose])
    and returns (nil, io.EOF) if it is closed. *)
Theorem CloseAndRecv_on_closed_request_half
    (p : putObjectStream) (r : PutObjectResponse)
    (Hp : put_consistent p) (Hc : clientClosed p = true) :
  exec p (putObjectClient_CloseSend newPutObjectStream_client)
    = (p, [], Returned (Some errStreamClosed))
  /\ exec p (putObjectClient_CloseAndRecv newPutObjectStream_client)
     = (p, [],
        if serverClosed p then Returned (None, Some io_EOF)
        else Awaiting Responses CloseAndRecv_result)
  /\ (serverClosed p = false ->
      always_ends
        (fun cfg =>
           cfg = (mkPutObjectStream (mkChan true) (mkChan true) true true,
                  Ret None, Ret (Some r, None)))
        (p,
         putObjectServer_SendAndClose newPutObjectStream_server (Some r),
         putObjectClient_CloseAndRecv newPutObjectStream_client)).
Proof.
  repeat match goal with |- _ /\ _ => split end.
  - rewrite (put_consistent_shape p Hp). rewrite Hc.
    destruct (serverClosed p); reflexivity.
  - rewrite (put_consistent_shape p Hp). rewrite Hc.
    destruct (serverClosed p); reflexivity.
  - exact (upload_completion p r Hp).
Qed.

(** ** The generic [SendMsg] and [RecvMsg] *)

(** C1, amended. The server-side [SendMsg] given a non-nil payload is
    accepted or rejected as the typed payload operation: on the download
    stream it is the same program as [Send]; on the upload stream it
    fails with "stream is closed" on a closed response half and hands the
    payload off on an open one exactly as [SendAndClose] does, but it does
    not close the half afterwards. Given an error it behaves as the
    specification's [SendError] and [CompleteWithError]: "stream is
    closed" on a closed half, otherwise the error is handed off and the
    half closed. Given a value of any other type, the untyped nil
    included, it fails with "invalid argument ...". The client-side
    [SendMsg] and [RecvMsg] and the server-side [RecvMsg] return nil and
    do nothing, whatever the message and the state of the stream. *)
Theorem SendMsg_routes_payloads_and_errors
    (g : getObjectStream) (p : putObjectStream)
    (gs : getObjectServer) (ps : putObjectServer)
    (gc : getObjectClient) (pc : putObjectClient)
    (x : GetObjectResponse) (z : PutObjectResponse) (e : error) (m : any)
    (Hg : get_consistent g) (Hp : put_consistent p) :
  getObjectServer_SendMsg gs (of_GetObjectResponse (Some x))
    = getObjectServer_Send gs (Some x)
  /\ exec g (getObjectServer_SendMsg newGetObjectStream_server (of_error e))
     = exec g (spec_SendError newGetObjectStream_server e)
  /\ exec g (getObjectServer_SendMsg newGetObjectStream_server (of_error e))
     = (if streamClosed g then (g, [], Returned (Some errStreamClosed))
        else (mkGetObjectStream (mkChan true) true,
              [Handoff (St := getObjectStream) Messages
                 (mkEnvelope None (Some e))],
              Returned None))
  /\ match m with
     | of_GetObjectResponse _ | of_error _ => True
     | _ => getObjectServer_SendMsg gs m = Ret (Some (errInvalidArgument m))
     end
  /\ exec p (putObjectServer_SendMsg newPutObjectStream_server
               (of_PutObjectResponse (Some z)))
     = (if serverClosed p then (p, [], Returned (Some errStreamClosed))
        else (p,
              [Handoff (St := putObjectStream) Responses
                 (mkEnvelope (Some z) None)],
              Returned None))
  /\ exec p (putObjectServer_SendAndClose newPutObjectStream_server (Some z))
     = (if serverClosed p then (p, [], Returned (Some errStreamClosed))
        else (mkPutObjectStream (requests p) (mkChan true)
                (clientClosed p) true,
              [Handoff (St := putObjectStream) Responses
                 (mkEnvelope (Some z) None)],
              Returned None))
  /\ putObjectServer_SendMsg ps (of_error e) = spec_CompleteWithError ps e
  /\ exec p (putObjectServer_SendMsg newPutObjectStream_server (of_error e))
     = (if serverClosed p then (p, [], Returned (Some errStreamClosed))
        else (mkPutObjectStream (requests p) (mkChan true)
                (clientClosed p) true,
              [Handoff (St := putObjectStream) Responses
                 (mkEnvelope None (Some e))],
              Returned None))
  /\ match m with
     | of_PutObjectResponse _ | of_error _ => True
     | _ => putObjectServer_SendMsg ps m = Ret (Some (errInvalidArgument m))
     end
  /\ exec g (getObjectClient_SendMsg gc m) = (g, [], Returned None)
  /\ exec g (getObjectClient_RecvMsg gc m) = (g, [], Returned None)
  /\ exec g (getObjectServer_RecvMsg gs m) = (g, [], Returned None)
  /\ exec p (putObjectClient_SendMsg pc m) = (p, [], Returned None)
  /\ exec p (putObjectClient_RecvMsg pc m) = (p, [], Returned None)
  /\ exec p (putObjectServer_RecvMsg ps m) = (p, [], Returned None).
Proof.
  repeat match goal with |- _ /\ _ => split end; try reflexivity.
  - destruct (get_consistent_cases g Hg) as [-> | ->]; reflexivity.
  - destruct (get_consistent_cases g Hg) as [-> | ->]; reflexivity.
  - destruct m; exact I || reflexivity.
  - rewrite (put_consistent_shape p Hp).
    destruct (clientClosed p), (serverClosed p); reflexivity.
  - rewrite (put_consistent_shape p Hp).
    destruct (clientClosed p), (serverClosed p); reflexivity.
  - rewrite (put_consistent_shape p Hp).
    destruct (clientClosed p), (serverClosed p); reflexivity.
  - destruct m; exact I || reflexivity.
Qed.

(** ** The guards under interleaving *)

Section RespectFacts.
Context {St : Type} {CH : Channels St}.
Variable Inv : St -> Prop.
Variable Keeps : St -> St -> Prop.
Hypothesis Keeps_refl : forall s, Keeps s s.
Hypothesis Keeps_trans : forall a b c, Keeps a b -> Keeps b c -> Keeps a c.

Lemma respects_bind {A B : Type} (p : prog A) (g : A -> prog B) :
  respects Inv Keeps p -> (forall a, respects Inv Keeps (g a)) ->
  respects Inv Keeps (bind p g).
Proof.
  intros Hp Hg.
  induction p as [a | | X f k IHk h IHh | c v k IHk h IHh | c k IHk];
    simpl in *.
  - apply Hg.
  - exact I.
  - destruct Hp as (Hf & Hk & Hh). repeat split; auto.
  - destruct Hp as (Hk & Hh). split; auto.
  - intros m. apply IHk. apply Hp.
Qed.

Lemma respects_defer {R : Type} (d : prog unit) (p : prog R) :
  respects Inv Keeps d -> respects Inv Keeps p ->
  respects Inv Keeps (defer d p).
Proof.
  intros Hd Hp.
  induction p as [a | | X f k IHk h IHh | c v k IHk h IHh | c k IHk];
    simpl in *.
  - apply respects_bind; simpl; auto.
  - apply respects_bind; simpl; auto.
  - destruct Hp as (Hf & Hk & Hh). repeat split; auto.
  - destruct Hp as (Hk & Hh). split; auto.
  - intros m. apply IHk. apply Hp.
Qed.

Lemma local_respects {R : Type} (s : St) (p : prog R) :
  Inv s -> respects Inv Keeps p ->
  match local s p with
  | Tau s' p' => Inv s' /\ Keeps s s' /\ respects Inv Keeps p'
  | Sending _ _ p' => respects Inv Keeps p'
  | Receiving _ k => forall m, respects Inv Keeps (k m)
  | Halted => True
  end.
Proof.
  intros Hs Hp.
  destruct p as [a | | X f k h | c v k h | c k]; simpl in *; auto.
  - destruct Hp as (Hf & Hk & Hh).
    destruct (Hf s Hs) as (s' & x & -> & Hs' & Hk').
    repeat split; auto.
  - destruct Hp as (Hk & Hh).
    destruct (closed (chan_of s c)); auto.
  - destruct (closed (chan_of s c)); auto.
Qed.

Lemma step_respects {A B : Type} (s s' : St)
    (p p' : prog A) (q q' : prog B) :
  step (s, p, q) (s', p', q') ->
  Inv s -> respects Inv Keeps p -> respects Inv Keeps q ->
  Inv s' /\ Keeps s s' /\ respects Inv Keeps p' /\ respects Inv Keeps q'.
Proof.
  intros H Hs Hp Hq.
  pose proof (local_respects s p Hs Hp) as Lp.
  pose proof (local_respects s q Hs Hq) as Lq.
  inversion H as [? ? ? ? ? E | ? ? ? ? ? E
                 | ? ? ? c v ? k E1 E2 | ? ? ? c v ? k E1 E2]; subst.
  - rewrite E in Lp. destruct Lp as (? & ? & ?). auto.
  - rewrite E in Lq. destruct Lq as (? & ? & ?). auto.
  - rewrite E1 in Lp. rewrite E2 in Lq. auto.
  - rewrite E1 in Lq. rewrite E2 in Lp. auto.
Qed.

Lemma steps_respects {A B : Type} (cfg cfg' : config A B) :
  steps cfg cfg' ->
  Inv (fst (fst cfg)) ->
  respects Inv Keeps (snd (fst cfg)) -> respects Inv Keeps (snd cfg) ->
  Inv (fst (fst cfg')) /\ Keeps (fst (fst cfg)) (fst (fst cfg'))
  /\ respects Inv Keeps (snd (fst cfg')) /\ respects Inv Keeps (snd cfg').
Proof.
  intros H. induction H as [cfg | cfg1 cfg2 cfg3 H12 _ IH];
    intros Hs Hp Hq.
  - auto.
  - destruct cfg1 as [[s1 p1] q1]. destruct cfg2 as [[s2 p2] q2].
    simpl in *.
    destruct (step_respects _ _ _ _ _ _ H12 Hs Hp Hq) as (Hs2 & K & Hp2 & Hq2).
    destruct (IH Hs2 Hp2 Hq2) as (Hs3 & K' & Hp3 & Hq3).
    repeat split; eauto.
Qed.

End RespectFacts.

Lemma getObject_do_respects {X : Type} (c : getObject_call X) :
  respects get_consistent get_stays_closed (getObject_do c).
Proof.
  assert (HC : forall s : getObjectStream, get_consistent s ->
            exists s' (x : unit),
              Close s = Some (s', x) /\ get_consistent s'
              /\ get_stays_closed s s').
  { intros s Hs. exists (mkGetObjectStream (mkChan true) true), tt.
    rewrite (Close_consistent s Hs). repeat split. }
  assert (HI : forall s : getObjectStream, get_consistent s ->
            exists s' (x : bool),
              IsStreamClosed s = Some (s', x) /\ get_consistent s'
              /\ get_stays_closed s s').
  { intros s Hs. exists s, (streamClosed s). repeat split; auto.
    intros H; exact H. }
  destruct c as [ | | m | m | resp | m | m | | ]; simpl;
    try destruct resp; try destruct m; simpl;
    repeat first
      [ exact I | exact HC | exact HI | split
      | intros [] | intros ? ].
Qed.

Lemma getObject_caller_respects {R : Type}
    (p : prog (St := getObjectStream) R) :
  getObject_caller p -> respects get_consistent get_stays_closed p.
Proof.
  intros H. induction H as [R r | R X c k _ IH]; simpl; [exact I |].
  apply respects_bind; [apply getObject_do_respects | exact IH].
Qed.

Lemma putObject_do_respects {X : Type} (c : putObject_call X) :
  respects put_consistent put_stays_closed (putObject_do c).
Proof.
  assert (HCC : forall s : putObjectStream, put_consistent s ->
            exists s' (x : unit),
              CloseClient s = Some (s', x) /\ put_consistent s'
              /\ put_stays_closed s s').
  { intros s Hs. rewrite (put_consistent_shape s Hs).
    destruct (clientClosed s), (serverClosed s);
      eexists; exists tt; (split; [reflexivity |]);
      repeat split; auto. }
  assert (HCS : forall s : putObjectStream, put_consistent s ->
            exists s' (x : unit),
              CloseServer s = Some (s', x) /\ put_consistent s'
              /\ put_stays_closed s s').
  { intros s Hs. rewrite (put_consistent_shape s Hs).
    destruct (clientClosed s), (serverClosed s);
      eexists; exists tt; (split; [reflexivity |]);
      repeat split; auto. }
  assert (HIC : forall s : putObjectStream, put_consistent s ->
            exists s' (x : bool),
              IsClientClosed s = Some (s', x) /\ put_consistent s'
              /\ put_stays_closed s s').
  { intros s Hs. exists s, (clientClosed s). repeat split; auto; apply Hs. }
  assert (HIS : forall s : putObjectStream, put_consistent s ->
            exists s' (x : bool),
              IsServerClosed s = Some (s', x) /\ put_consistent s'
              /\ put_stays_closed s s').
  { intros s Hs. exists s, (serverClosed s). repeat split; auto; apply Hs. }
  destruct c as [req | | | m | m | resp | | m | m | | | | ]; simpl;
    try destruct req; try destruct resp; try destruct m; simpl;
    repeat first
      [ exact I | exact HCC | exact HCS | exact HIC | exact HIS | split
      | intros [] | intros ? ].
Qed.

Lemma putObject_caller_respects {R : Type}
    (p : prog (St := putObjectStream) R) :
  putObject_caller p -> respects put_consistent put_stays_closed p.
Proof.
  intros H. induction H as [R r | R X c k _ IH]; simpl; [exact I |].
  apply respects_bind; [apply putObject_do_respects | exact IH].
Qed.

(** X1. Two goroutines that touch a download stream only through the
    methods of its facades and of the stream, whatever they call and
    however they interleave, keep the closed flag equal to the state of
    the channel and never reopen the stream; so [Close] never closes a
    closed channel, at any point of any run. *)
Theorem getObject_guard_holds_in_every_run
    {A B : Type} (p : prog (St := getObjectStream) A)
    (q : prog (St := getObjectStream) B)
    (s s' : getObjectStream) (p' : prog (St := getObjectStream) A)
    (q' : prog (St := getObjectStream) B)
    (Hs : get_consistent s)
    (Hp : getObject_caller p) (Hq : getObject_caller q)
    (Hrun : steps (St := getObjectStream) (s, p, q) (s', p', q')) :
  get_consistent s'
  /\ (streamClosed s = true -> streamClosed s' = true)
  /\ Close s' = Some (mkGetObjectStream (mkChan true) true, tt).
Proof.
  assert (R1 : forall a : getObjectStream, get_stays_closed a a)
    by (intros a H; exact H).
  assert (R2 : forall a b c : getObjectStream,
            get_stays_closed a b -> get_stays_closed b c ->
            get_stays_closed a c)
    by (intros a b c H1 H2 H; auto).
  destruct (steps_respects get_consistent get_stays_closed R1 R2 _ _ Hrun Hs
              (getObject_caller_respects p Hp)
              (getObject_caller_respects q Hq)) as (Hs' & K & _).
  simpl in *. split; [exact Hs' |]. split; [exact K |].
  exact (Close_consistent s' Hs').
Qed.

(** X2. Two goroutines that touch an upload stream only through the
    methods of its facades and of the stream, whatever they call and
    however they interleave, keep each closed flag equal to the state of
    its channel and never reopen a half; so [CloseClient] and
    [CloseServer] never close a closed channel. *)
Theorem putObject_guards_hold_in_every_run
    {A B : Type} (p : prog (St := putObjectStream) A)
    (q : prog (St := putObjectStream) B)
    (s s' : putObjectStream) (p' : prog (St := putObjectStream) A)
    (q' : prog (St := putObjectStream) B)
    (Hs : put_consistent s)
    (Hp : putObject_caller p) (Hq : putObject_caller q)
    (Hrun : steps (St := putObjectStream) (s, p, q) (s', p', q')) :
  put_consistent s'
  /\ (clientClosed s = true -> clientClosed s' = true)
  /\ (serverClosed s = true -> serverClosed s' = true)
  /\ (exists s'', CloseClient s' = Some (s'', tt))
  /\ (exists s'', CloseServer s' = Some (s'', tt)).
Proof.
  assert (R1 : forall a : putObjectStream, put_stays_closed a a)
    by (intros a; split; intros H; exact H).
  assert (R2 : forall a b c : putObjectStream,
            put_stays_closed a b -> put_stays_closed b c ->
            put_stays_closed a c)
    by (intros a b c [H1 H2] [H3 H4]; split; auto).
  destruct (steps_respects put_consistent put_stays_closed R1 R2 _ _ Hrun Hs
              (putObject_caller_respects p Hp)
              (putObject_caller_respects q Hq)) as (Hs' & [K1 K2] & _).
  simpl in *. repeat split; try apply Hs'; auto.
  - eexists. exact (put_close_call_consistent callCloseClient s' Hs').
  - eexists. exact (put_close_call_consistent callCloseServer s' Hs').
Qed.

(** ** Hand-offs, races and whole transfers *)

Lemma steps_inv {St : Type} {CH : Channels St} {A B : Type}
    (cfg cfg' : config A B) :
  steps cfg cfg' ->
  cfg' = cfg \/ exists c, In c (succs cfg) /\ steps c cfg'.
Proof.
  intros H. destruct H as [cfg | cfg1 cfg2 cfg3 H12 H23]; [auto |].
  right. exists cfg2. split; [apply step_succs; exact H12 | exact H23].
Qed.

(** One step of a run, to the first or to the second successor. *)
Ltac take_first :=
  eapply steps_cons; [apply step_succs; cbn; left; reflexivity |].
Ltac take_second :=
  eapply steps_cons; [apply step_succs; cbn; right; left; reflexivity |].

Lemma upload_run (chunks : list PutObjectRequest) :
  forall (fuel : nat) (answer : PutObjectResponse)
         (sent : list (option error))
         (got : list (option PutObjectRequest * option error)),
    length chunks < fuel ->
    always_ends
      (fun cfg =>
         cfg = (mkPutObjectStream (mkChan true) (mkChan true) true true,
                Ret ((got ++ map (fun x => (Some x, None)) chunks
                          ++ [(None, Some io_EOF)])%list,
                     Some None),
                Ret ((sent ++ repeat None (length chunks))%list,
                     (Some answer, None))))
      (newPutObjectStream,
       store newPutObjectStream_server fuel (Some answer) got,
       upload newPutObjectStream_client chunks sent).
Proof.
  induction chunks as [| x rest IH]; intros fuel answer sent got Hfuel;
    (destruct fuel as [| n]; [inversion Hfuel |]).
  - simpl repeat. simpl map. rewrite app_nil_r. explore_all.
  - explore. explore.
    eapply always_ends_weaken; [| apply (IH n); simpl in Hfuel; lia].
    intros c ->. simpl. rewrite <- !app_assoc. reflexivity.
Qed.

(** X3. A client that sends the chunks [chunks] with [Send] and then
    calls [CloseAndRecv], running against a server that calls [Recv]
    until it gets an error and then answers with [SendAndClose], always
    comes to an end, whatever the interleaving: the server has received
    exactly the chunks, in the order sent, each with a nil error, then
    (nil, io.EOF); every [Send] and the [SendAndClose] have returned nil;
    [CloseAndRecv] has returned the answer with a nil error; both halves
    are closed. *)
Theorem upload_delivers_in_order_then_answers
    (chunks : list PutObjectRequest) (answer : PutObjectResponse)
    (fuel : nat) (Hfuel : length chunks < fuel) :
  let start := (newPutObjectStream,
                store newPutObjectStream_server fuel (Some answer) [],
                upload newPutObjectStream_client chunks []) in
  let final := (mkPutObjectStream (mkChan true) (mkChan true) true true,
                Ret ((map (fun x => (Some x, None)) chunks
                        ++ [(None, Some io_EOF)])%list,
                     Some None),
                Ret (repeat None (length chunks), (Some answer, None))) in
  always_ends (fun cfg => cfg = final) start
  /\ steps start final
  /\ (forall cfg, steps start cfg -> (forall cfg', ~ step cfg cfg') ->
                  cfg = final).
Proof.
  intros start final.
  assert (H : always_ends (fun cfg => cfg = final) start)
    by exact (upload_run chunks fuel answer [] [] Hfuel).
  split; [exact H |]. split.
  - destruct (always_ends_reaches _ _ H) as (cfg & Hs & _ & ->). exact Hs.
  - intros cfg Hs Hstuck.
    exact (proj2 (always_ends_sound _ _ _ H Hs Hstuck)).
Qed.

(** X4. The download stream has one guard for both ends, and [Send] and
    [SendMsg] read it before the hand-off, not with it. When the server's
    [Send], or its [SendMsg] of an error, runs against the client's
    [CloseSend], nothing is delivered: the run always ends with the
    stream closed, nil for [CloseSend], and for the server either the
    error "stream is closed" or the panic of a send on a closed channel.
    Both ends are reached by some run. *)
Theorem Send_racing_CloseSend_fails_or_panics
    (x : GetObjectResponse) (e : error) :
  let closed_stream := mkGetObjectStream (mkChan true) true in
  let racing (p : prog (St := getObjectStream) (option error)) :=
    (newGetObjectStream, p,
     getObjectClient_CloseSend newGetObjectStream_client) in
  let send := getObjectServer_Send newGetObjectStream_server (Some x) in
  let sendmsg :=
    getObjectServer_SendMsg newGetObjectStream_server (of_error e) in
  always_ends
    (fun cfg =>
       cfg = (closed_stream, Ret (Some errStreamClosed), Ret None)
       \/ cfg = (closed_stream, Panic, Ret None))
    (racing send)
  /\ steps (racing send) (closed_stream, Ret (Some errStreamClosed), Ret None)
  /\ steps (racing send) (closed_stream, Panic, Ret None)
  /\ always_ends
       (fun cfg =>
          cfg = (closed_stream, Ret (Some errStreamClosed), Ret None)
          \/ cfg = (closed_stream, Panic, Ret None))
       (racing sendmsg)
  /\ steps (racing sendmsg)
       (closed_stream, Ret (Some errStreamClosed), Ret None)
  /\ steps (racing sendmsg) (closed_stream, Panic, Ret None).
Proof.
  intros closed_stream racing send sendmsg.
  repeat match goal with |- _ /\ _ => split end.
  - explore_all.
  - take_second. take_second. take_first. apply steps_refl.
  - take_first. take_first. take_first. take_first. apply steps_refl.
  - explore_all.
  - take_second. take_second. take_first. apply steps_refl.
  - take_first. take_first. take_first. take_first. take_first.
    apply steps_refl.
Qed.

(** Every configuration reached from a concrete one is among the ones
    listed: the goal is left for each. *)
Ltac reached H :=
  repeat
    (let c := fresh "c" in
     let Hc := fresh "Hc" in
     apply steps_inv in H;
     destruct H as [-> | (c & Hc & H)];
     [ | cbn in Hc;
         repeat (destruct Hc as [<- | Hc]); try contradiction ]).

(** X5. A hand-off needs both ends. On an open stream whose other end
    stays idle, [Send] of the download server and [Send] of the upload
    client (with a payload), [Recv] of the download client, [Recv] of the
    upload server and [CloseAndRecv] never return: in every configuration
    that a run reaches the caller has not come to an end and the channel
    it waits on is still open. *)
Theorem handoff_waits_for_the_other_end
    (x : GetObjectResponse) (y : PutObjectRequest) :
  (forall cfg,
     steps (newGetObjectStream,
            getObjectServer_Send newGetObjectStream_server (Some x),
            Ret (St := getObjectStream) tt) cfg ->
     finished (snd (fst cfg)) = false
     /\ fst (fst cfg) = newGetObjectStream)
  /\ (forall cfg,
     steps (newGetObjectStream,
            Ret (St := getObjectStream) tt,
            getObjectClient_Recv newGetObjectStream_client) cfg ->
     finished (snd cfg) = false /\ fst (fst cfg) = newGetObjectStream)
  /\ (forall cfg,
     steps (newPutObjectStream,
            Ret (St := putObjectStream) tt,
            putObjectClient_Send newPutObjectStream_client (Some y)) cfg ->
     finished (snd cfg) = false /\ fst (fst cfg) = newPutObjectStream)
  /\ (forall cfg,
     steps (newPutObjectStream,
            putObjectServer_Recv newPutObjectStream_server,
            Ret (St := putObjectStream) tt) cfg ->
     finished (snd (fst cfg)) = false
     /\ fst (fst cfg) = newPutObjectStream)
  /\ (forall cfg,
     steps (newPutObjectStream,
            Ret (St := putObjectStream) tt,
            putObjectClient_CloseAndRecv newPutObjectStream_client) cfg ->
     finished (snd cfg) = false
     /\ responses (fst (fst cfg)) = mkChan false).
Proof.
  repeat match goal with |- _ /\ _ => split end;
    intros cfg H; reached H; split; reflexivity.
Qed.

(** X6. [SendMsg] of either server does not check a payload for nil. A
    nil [*GetObjectResponse] or [*PutObjectResponse] given to it is
    handed off, and the client's [Recv] or [CloseAndRecv] returns
    (nil, nil): no message and no error. The server's call returns nil
    and the half it sent on stays open. *)
Theorem SendMsg_hands_off_nil_payload
    (p : putObjectStream)
    (Hp : put_consistent p) (Hopen : serverClosed p = false) :
  always_ends
    (fun cfg => cfg = (newGetObjectStream, Ret None, Ret (None, None)))
    (newGetObjectStream,
     getObjectServer_SendMsg newGetObjectStream_server
       (of_GetObjectResponse None),
     getObjectClient_Recv newGetObjectStream_client)
  /\ always_ends
       (fun cfg =>
          cfg = (mkPutObjectStream (mkChan true) (mkChan false) true false,
                 Ret None, Ret (None, None)))
       (p,
        putObjectServer_SendMsg newPutObjectStream_server
          (of_PutObjectResponse None),
        putObjectClient_CloseAndRecv newPutObjectStream_client).
Proof.
  split.
  - explore_all.
  - rewrite (put_consistent_shape p Hp). rewrite Hopen.
    destruct (clientClosed p); explore_all.
Qed.


Section OffersFacts.
Context {St : Type} {CH : Channels St}.
Variable Good : forall c : Ch, Msg c -> Prop.

Lemma offers_bind {A B : Type} (p : prog A) (g : A -> prog B) :
  offers Good p -> (forall a, offers Good (g a)) -> offers Good (bind p g).
Proof.
  intros Hp Hg.
  induction p as [a | | X f k IHk h IHh | c v k IHk h IHh | c k IHk];
    simpl in *.
  - apply Hg.
  - exact I.
  - destruct Hp as (Hk & Hh). split; auto.
  - destruct Hp as (Hv & Hk & Hh). repeat split; auto.
  - intros m. apply IHk. apply Hp.
Qed.

Lemma offers_defer {R : Type} (d : prog unit) (p : prog R) :
  offers Good d -> offers Good p -> offers Good (defer d p).
Proof.
  intros Hd Hp.
  induction p as [a | | X f k IHk h IHh | c v k IHk h IHh | c k IHk];
    simpl in *.
  - apply offers_bind; simpl; auto.
  - apply offers_bind; simpl; auto.
  - destruct Hp as (Hk & Hh). split; auto.
  - destruct Hp as (Hv & Hk & Hh). repeat split; auto.
  - intros m. apply IHk. apply Hp.
Qed.

Lemma local_offers {R : Type} (s : St) (p : prog R) :
  offers Good p ->
  match local s p with
  | Tau _ p' => offers Good p'
  | Sending c v p' => Good c v /\ offers Good p'
  | Receiving _ k => forall m, offers Good (k m)
  | Halted => True
  end.
Proof.
  intros Hp.
  destruct p as [a | | X f k h | c v k h | c k]; simpl in *; auto.
  - destruct Hp as (Hk & Hh). destruct (f s) as [[s' x] |]; auto.
  - destruct Hp as (Hv & Hk & Hh). destruct (closed (chan_of s c)); auto.
  - destruct (closed (chan_of s c)); auto.
Qed.

Lemma step_offers {A B : Type} (s s' : St)
    (p p' : prog A) (q q' : prog B) :
  step (s, p, q) (s', p', q') ->
  offers Good p -> offers Good q -> offers Good p' /\ offers Good q'.
Proof.
  intros H Hp Hq.
  pose proof (local_offers s p Hp) as Lp.
  pose proof (local_offers s q Hq) as Lq.
  inversion H as [? ? ? ? ? E | ? ? ? ? ? E
                 | ? ? ? c v ? k E1 E2 | ? ? ? c v ? k E1 E2]; subst.
  - rewrite E in Lp. auto.
  - rewrite E in Lq. auto.
  - rewrite E1 in Lp. rewrite E2 in Lq. destruct Lp. auto.
  - rewrite E1 in Lq. rewrite E2 in Lp. destruct Lq. auto.
Qed.

Lemma steps_offers {A B : Type} (cfg cfg' : config A B) :
  steps cfg cfg' ->
  offers Good (snd (fst cfg)) -> offers Good (snd cfg) ->
  offers Good (snd (fst cfg')) /\ offers Good (snd cfg').
Proof.
  intros H. induction H as [cfg | cfg1 cfg2 cfg3 H12 _ IH]; intros Hp Hq.
  - auto.
  - destruct cfg1 as [[s1 p1] q1]. destruct cfg2 as [[s2 p2] q2].
    simpl in *.
    destruct (step_offers _ _ _ _ _ _ H12 Hp Hq) as (Hp2 & Hq2). auto.
Qed.

End OffersFacts.

Lemma putObject_do_offers {X : Type} (c : putObject_call X) :
  offers put_request_only (putObject_do c).
Proof.
  destruct c as [req | | | m | m | resp | | m | m | | | | ]; simpl;
    try destruct req; try destruct resp; try destruct m; simpl;
    repeat first
      [ exact I | split | intros [] | intros ? | eexists; reflexivity ].
Qed.

Lemma putObject_caller_offers {R : Type}
    (p : prog (St := putObjectStream) R) :
  putObject_caller p -> offers put_request_only p.
Proof.
  intros H. induction H as [R r | R X c k _ IH]; simpl; [exact I |].
  apply offers_bind; [apply putObject_do_offers | exact IH].
Qed.

(** X13. Whatever two goroutines call on an upload stream through its
    facades, every value that is ever offered on the request channel is a
    request that is not nil, without an error. So a [Recv] of the server
    returns a request with a nil error, or (nil, io.EOF) when the request
    half is closed: never an error of another kind, and never
    (nil, nil). *)
Theorem request_channel_carries_requests_only
    {A B : Type} (p : prog (St := putObjectStream) A)
    (q : prog (St := putObjectStream) B)
    (s s' : putObjectStream) (p' : prog (St := putObjectStream) A)
    (q' : prog (St := putObjectStream) B)
    (Hp : putObject_caller p) (Hq : putObject_caller q)
    (Hrun : steps (St := putObjectStream) (s, p, q) (s', p', q')) :
  (forall v rest, local s' p' = Sending Requests v rest ->
     exists req, v = mkEnvelope (Some req) None)
  /\ (forall v rest, local s' q' = Sending Requests v rest ->
     exists req, v = mkEnvelope (Some req) None)
  /\ (forall (k : option PutObjectRequest * option error
                  -> prog (St := putObjectStream) A)
             (cfg : config A B),
        p' = (r <- putObjectServer_Recv newPutObjectStream_server ;; k r) ->
        step (s', p', q') cfg ->
        snd (fst cfg) = p'
        \/ snd (fst cfg) = k (None, Some io_EOF)
        \/ exists req, snd (fst cfg) = k (Some req, None)).
Proof.
  destruct (steps_offers (CH := putObject_channels) put_request_only _ _ Hrun
              (putObject_caller_offers p Hp)
              (putObject_caller_offers q Hq)) as (Hp' & Hq').
  simpl in Hp', Hq'.
  assert (HQ : forall v rest, local s' q' = Sending Requests v rest ->
                 exists req, v = mkEnvelope (Some req) None).
  { intros v rest E.
    pose proof (local_offers (CH := putObject_channels) put_request_only
                  s' q' Hq') as L.
    rewrite E in L. exact (proj1 L). }
  split; [| split; [exact HQ |]].
  - intros v rest E.
    pose proof (local_offers (CH := putObject_channels) put_request_only
                  s' p' Hp') as L.
    rewrite E in L. exact (proj1 L).
  - intros k cfg -> Hstep. apply step_succs in Hstep.
    unfold succs, tau_of, meet in Hstep. simpl local in Hstep.
    destruct (closed (requests s'));
      destruct (local s' q') as [s2 q2 | c v q2 | c k2 | ] eqn:Lq;
      try destruct c; simpl in Hstep;
      repeat (destruct Hstep as [<- | Hstep]); try contradiction;
      simpl; auto.
    destruct (HQ v q2 eq_refl) as (req & ->).
    right. right. exists req. reflexivity.
Qed.

End Loopback.

Arguments newGetObjectStream {GetObjectResponse}.
Arguments newGetObjectStream_client {GetObjectResponse}.
Arguments newGetObjectStream_server {GetObjectResponse}.
Arguments newPutObjectStream {PutObjectRequest PutObjectResponse}.
Arguments newPutObjectStream_client {PutObjectRequest PutObjectResponse}.
Arguments newPutObjectStream_server {PutObjectRequest PutObjectResponse}.
Arguments mkGetObjectStream {GetObjectResponse} _ _.
Arguments mkPutObjectStream {PutObjectRequest PutObjectResponse} _ _ _ _.
Arguments getObjectClient_Recv {GetObjectResponse} c.
Arguments getObjectClient_CloseSend {GetObjectResponse} c.
Arguments getObjectServer_Send {GetObjectResponse} s resp.
Arguments getObjectServer_SendMsg {GetObjectResponse PutObjectRequest
  PutObjectResponse} Sprint s m.
Arguments putObjectClient_Send {PutObjectRequest PutObjectResponse} c req.
Arguments putObjectClient_SendMsg {GetObjectResponse PutObjectRequest
  PutObjectResponse} c m.
Arguments putObjectClient_CloseAndRecv {PutObjectRequest PutObjectResponse} c.
Arguments putObjectClient_CloseSend {PutObjectRequest PutObjectResponse} c.
Arguments putObjectServer_SendAndClose {PutObjectRequest PutObjectResponse}
  s resp.
Arguments putObjectServer_SendMsg {GetObjectResponse PutObjectRequest
  PutObjectResponse} Sprint s m.
Arguments putObjectServer_Recv {PutObjectRequest PutObjectResponse} s.
Arguments produce {GetObjectResponse} srv chunks acc.
Arguments consume {GetObjectResponse} c fuel acc.
Arguments of_GetObjectResponse {GetObjectResponse PutObjectRequest
  PutObjectResponse} p.
Arguments of_PutObjectRequest {GetObjectResponse PutObjectRequest
  PutObjectResponse} p.
Arguments of_PutObjectResponse {GetObjectResponse PutObjectRequest
  PutObjectResponse} p.
Arguments of_error {GetObjectResponse PutObjectRequest PutObjectResponse} e.
Arguments of_other {GetObjectResponse PutObjectRequest PutObjectResponse}
  description.
Arguments nil_interface {GetObjectResponse PutObjectRequest PutObjectResponse}.
Arguments mkEnvelope {T} msg err.
Arguments CloseAndRecv_result {PutObjectRequest PutObjectResponse} m.

(** ** The claims at concrete streams *)

(** Scenario A of the specification: chunks "a", "b", "c". *)
Lemma download_delivers_in_order_witness :
  length ["a"; "b"; "c"] < 4
  /\ always_ends
       (fun cfg =>
          cfg = (mkGetObjectStream (mkChan true) true,
                 Ret [None; None; None],
                 Ret [(Some "a", None); (Some "b", None); (Some "c", None);
                      (None, Some io_EOF)]))
       (newGetObjectStream,
        produce newGetObjectStream_server ["a"; "b"; "c"] [],
        consume newGetObjectStream_client 4 []).
Proof.
  split; [simpl; lia |].
  refine (proj1 (download_delivers_in_order string ["a"; "b"; "c"] 4 _)).
  simpl. lia.
Defined.

Lemma closing_is_idempotent_witness :
  get_consistent string newGetObjectStream
  /\ put_consistent string string newPutObjectStream
  /\ run_calls (repeat (Close string) 3) newGetObjectStream
     = Some (mkGetObjectStream (mkChan true) true).
Proof.
  split; [reflexivity |]. split; [split; reflexivity |].
  exact (proj1 (proj1 (closing_is_idempotent string string string
                         newGetObjectStream newPutObjectStream
                         eq_refl (conj eq_refl eq_refl)) 2)).
Defined.

Lemma payload_on_closed_half_is_rejected_witness :
  exec (mkGetObjectStream (mkChan true) true)
    (getObjectServer_Send newGetObjectStream_server (Some "a"))
  = (mkGetObjectStream (mkChan true) true, [],
     Returned (Some errStreamClosed)).
Proof.
  exact (proj1 (payload_on_closed_half_is_rejected string string string
                  (mkGetObjectStream (mkChan true) true)
                  (mkPutObjectStream (mkChan true) (mkChan false) true false)
                  (mkPutObjectStream (mkChan false) (mkChan true) false true)
                  "a" "x" "R" eq_refl eq_refl eq_refl)).
Defined.

Lemma CloseSend_fails_if_closed_else_closes_witness :
  get_consistent string newGetObjectStream
  /\ put_consistent string string newPutObjectStream
  /\ exists p',
       exec newPutObjectStream
         (putObjectClient_CloseSend newPutObjectStream_client)
       = (p', [], Returned None)
       /\ clientClosed string string p' = true
       /\ closed (requests string string p') = true
       /\ exec p' (putObjectServer_Recv newPutObjectStream_server)
          = (p', [], Returned (None, Some io_EOF)).
Proof.
  split; [reflexivity |]. split; [split; reflexivity |].
  apply (CloseSend_fails_if_closed_else_closes string string string
           newGetObjectStream newPutObjectStream
           eq_refl (conj eq_refl eq_refl)).
  reflexivity.
Defined.

Lemma SendAndClose_closes_response_half_only_witness :
  put_consistent string string newPutObjectStream
  /\ serverClosed string string newPutObjectStream = false
  /\ exists p',
       exec newPutObjectStream
         (putObjectServer_SendAndClose newPutObjectStream_server (Some "R"))
       = (p',
          [Handoff (St := putObjectStream string string) Responses
             (mkEnvelope (Some "R") None)],
          Returned None)
       /\ IsServerClosed string string p' = Some (p', true)
       /\ closed (responses string string p') = true
       /\ clientClosed string string p' = false
       /\ requests string string p' = mkChan false.
Proof.
  split; [split; reflexivity |]. split; [reflexivity |].
  exact (proj1 (SendAndClose_closes_response_half_only string string
                  newPutObjectStream "R" (conj eq_refl eq_refl) eq_refl)).
Defined.

Lemma error_delivery_closes_the_half_witness :
  get_consistent string newGetObjectStream
  /\ put_consistent string string newPutObjectStream
  /\ exists g' tr,
       exec (newGetObjectStream (GetObjectResponse := string))
         (getObjectServer_SendMsg (fun _ => "v") newGetObjectStream_server
            (of_error (PutObjectRequest := string)
               (PutObjectResponse := string) (errorString "boom")))
       = (g', tr, Returned None).
Proof.
  split; [reflexivity |]. split; [split; reflexivity |].
  apply (error_delivery_closes_the_half string string string (fun _ => "v")
           newGetObjectStream newPutObjectStream (errorString "boom")
           eq_refl (conj eq_refl eq_refl)).
  reflexivity.
Defined.

(** Scenario C of the specification (the answer [R]) and scenario D (the
    response half closed without an answer). *)
Lemma CloseAndRecv_returns_terminal_message_witness :
  always_ends
    (fun cfg =>
       cfg = (mkPutObjectStream (mkChan true) (mkChan true) true true,
              Ret None, Ret (Some "R", None)))
    (newPutObjectStream,
     putObjectServer_SendAndClose newPutObjectStream_server (Some "R"),
     putObjectClient_CloseAndRecv
       (newPutObjectStream_client (PutObjectRequest := string)))
  /\ exec (mkPutObjectStream (mkChan false) (mkChan true) false true)
       (putObjectClient_CloseAndRecv
          (newPutObjectStream_client (PutObjectRequest := string)
             (PutObjectResponse := string)))
     = (mkPutObjectStream (mkChan true) (mkChan true) true true, [],
        Returned (None, Some io_EOF)).
Proof.
  pose proof (CloseAndRecv_returns_terminal_message string string
                newPutObjectStream
                (mkPutObjectStream (mkChan false) (mkChan true) false true)
                "R" (conj eq_refl eq_refl) eq_refl
                (conj eq_refl eq_refl) eq_refl) as H.
  split; [exact (proj1 (proj2 H)) | exact (proj2 (proj2 (proj2 H)))].
Defined.

Lemma CloseAndRecv_on_closed_request_half_witness :
  put_consistent string string
    (mkPutObjectStream (mkChan true) (mkChan false) true false)
  /\ exec (mkPutObjectStream (mkChan true) (mkChan false) true false)
       (putObjectClient_CloseAndRecv
          (newPutObjectStream_client (PutObjectRequest := string)
             (PutObjectResponse := string)))
     = (mkPutObjectStream (mkChan true) (mkChan false) true false, [],
        Awaiting Responses CloseAndRecv_result).
Proof.
  split; [split; reflexivity |].
  exact (proj1 (proj2 (CloseAndRecv_on_closed_request_half string string
                         (mkPutObjectStream (mkChan true) (mkChan false)
                            true false)
                         "R" (conj eq_refl eq_refl) eq_refl))).
Defined.

Lemma SendMsg_routes_payloads_and_errors_witness :
  get_consistent string newGetObjectStream
  /\ put_consistent string string newPutObjectStream
  /\ exec (newGetObjectStream (GetObjectResponse := string))
       (getObjectServer_SendMsg (fun _ => "v") newGetObjectStream_server
          (of_error (PutObjectRequest := string)
             (PutObjectResponse := string) (errorString "boom")))
     = (mkGetObjectStream (mkChan true) true,
        [Handoff (St := getObjectStream string) Messages
           (mkEnvelope None (Some (errorString "boom")))],
        Returned None).
Proof.
  split; [reflexivity |]. split; [split; reflexivity |].
  exact (proj1 (proj2 (proj2
           (SendMsg_routes_payloads_and_errors string string string
              (fun _ => "v") newGetObjectStream newPutObjectStream
              newGetObjectStream_server newPutObjectStream_server
              newGetObjectStream_client newPutObjectStream_client
              "a" "R" (errorString "boom") nil_interface
              eq_refl (conj eq_refl eq_refl))))).
Defined.

(** C1 as stated fails. A nil [*GetObjectResponse] given to [SendMsg] of
    the download server is handed off to the client and the call returns
    nil, where [Send] rejects it. [SendMsg] of the upload client returns
    nil for a request on a closed request half, where [Send] fails with
    "stream is closed", and returns nil for a value that is neither a
    payload nor an error. [SendMsg] of the upload server given a payload
    leaves the response half open, where [SendAndClose] closes it. *)
Lemma SendMsg_differs_from_typed_operations :
  exec (newGetObjectStream (GetObjectResponse := string))
    (getObjectServer_SendMsg (fun _ => "v") newGetObjectStream_server
       (of_GetObjectResponse
          (PutObjectRequest := string) (PutObjectResponse := string) None))
  = (newGetObjectStream,
     [Handoff (St := getObjectStream string) Messages (mkEnvelope None None)],
     Returned None)
  /\ exec (newGetObjectStream (GetObjectResponse := string))
       (getObjectServer_Send newGetObjectStream_server None)
     = (newGetObjectStream, [],
        Returned (Some (errNilParameter "resp GetObjectResponse")))
  /\ exec (mkPutObjectStream (mkChan true) (mkChan false) true false)
       (putObjectClient_SendMsg (GetObjectResponse := string)
          (PutObjectResponse := string)
          newPutObjectStream_client (of_PutObjectRequest (Some "x")))
     = (mkPutObjectStream (mkChan true) (mkChan false) true false, [],
        Returned None)
  /\ exec (mkPutObjectStream (PutObjectResponse := string)
             (mkChan true) (mkChan false) true false)
       (putObjectClient_Send newPutObjectStream_client (Some "x"))
     = (mkPutObjectStream (mkChan true) (mkChan false) true false, [],
        Returned (Some errStreamClosed))
  /\ exec (newPutObjectStream (PutObjectRequest := string)
             (PutObjectResponse := string))
       (putObjectClient_SendMsg (GetObjectResponse := string)
          newPutObjectStream_client (of_other "42"))
     = (newPutObjectStream, [], Returned None)
  /\ fst (fst (exec (newPutObjectStream (PutObjectRequest := string))
                 (putObjectServer_SendMsg (GetObjectResponse := string)
                    (fun _ => "v") newPutObjectStream_server
                    (of_PutObjectResponse (Some "R")))))
     = newPutObjectStream
  /\ fst (fst (exec (newPutObjectStream (PutObjectRequest := string))
                 (putObjectServer_SendAndClose newPutObjectStream_server
                    (Some "R"))))
     = mkPutObjectStream (mkChan false) (mkChan true) false true.
Proof. repeat split. Qed.

(** ** Options of package convert: properties *)

Lemma getOpts_from_app (opt opt' : list Option) :
  Forall (fun o => o <> None) opt ->
  forall opts, exists opts',
    getOpts_from opts opt = Some opts'
    /\ getOpts_from opts (opt ++ opt') = getOpts_from opts' opt'.
Proof.
  induction 1 as [| o opt Ho _ IH]; intros opts; simpl.
  - exists opts. auto.
  - destruct o as [f |]; [| congruence]. apply IH.
Qed.

(** X7. [getOpts] applies the options from left to right to the default
    options, whose channel id is empty: without options the channel id is
    empty; when the last option is [WithChannelId id] the channel id is
    [id], whatever the options before it did; a nil option makes the call
    panic, wherever it stands. *)
Theorem getOpts_last_channel_id_wins
    (opt after : list Option) (id : string)
    (Hopt : Forall (fun o => o <> None) opt) :
  getOpts [] = Some (mkOptions "")
  /\ getOpts (opt ++ [WithChannelId id]) = Some (mkOptions id)
  /\ getOpts (opt ++ None :: after) = None.
Proof.
  split; [reflexivity |]. unfold getOpts. split.
  - destruct (getOpts_from_app opt [WithChannelId id] Hopt getDefaultOptions)
      as (o & _ & ->). reflexivity.
  - destruct (getOpts_from_app opt (None :: after) Hopt getDefaultOptions)
      as (o & _ & ->). reflexivity.
Qed.

(** ** Host catalogs: properties *)

Lemma string_le_lt_or_eq (x y : string) :
  string_le x y <-> string_lt x y \/ x = y.
Proof.
  unfold string_le, string_lt.
  destruct (OrdersEx.String_as_OT.compare_spec x y) as [H | H | H].
  - split; [auto | discriminate].
  - split; [auto | discriminate].
  - split; [congruence |]. intros [E | E]; [discriminate |].
    subst. exfalso.
    exact (RelationClasses.StrictOrder_Irreflexive
             (R := OrdersEx.String_as_OT.lt) y H).
Qed.

Lemma string_lt_trans (x y z : string) :
  string_lt x y -> string_lt y z -> string_lt x z.
Proof.
  exact (RelationClasses.StrictOrder_Transitive
           (R := OrdersEx.String_as_OT.lt) x y z).
Qed.

Lemma string_lt_irrefl (x : string) : ~ string_lt x x.
Proof.
  exact (RelationClasses.StrictOrder_Irreflexive
           (R := OrdersEx.String_as_OT.lt) x).
Qed.

Lemma string_le_trans (x y z : string) :
  string_le x y -> string_le y z -> string_le x z.
Proof.
  rewrite !string_le_lt_or_eq.
  intros [H1 | ->] [H2 | ->]; eauto using string_lt_trans.
Qed.

Lemma string_lt_le_trans (x y z : string) :
  string_lt x y -> string_le y z -> string_lt x z.
Proof.
  rewrite string_le_lt_or_eq.
  intros H1 [H2 | ->]; eauto using string_lt_trans.
Qed.

Lemma compare_Gt_le (x y : string) :
  OrdersEx.String_as_OT.compare x y = Gt -> string_le y x.
Proof.
  intros H. apply string_le_lt_or_eq. left. unfold string_lt.
  destruct (OrdersEx.String_as_OT.compare_spec x y) as [E | E | E];
    try discriminate. exact E.
Qed.

Lemma Sort_insert_In (x z : string) (l : list string) :
  In z (Sort_insert x l) <-> z = x \/ In z l.
Proof.
  induction l as [| y rest IH]; simpl.
  - intuition.
  - destruct (OrdersEx.String_as_OT.compare x y); simpl;
      try rewrite IH; intuition.
Qed.

Lemma Sort_In (z : string) (l : list string) : In z (Sort l) <-> In z l.
Proof.
  induction l as [| x rest IH]; simpl; [tauto |].
  rewrite Sort_insert_In, IH. intuition.
Qed.

Lemma Sort_insert_sorted (x : string) (l : list string) :
  Sorted.StronglySorted string_le l ->
  Sorted.StronglySorted string_le (Sort_insert x l).
Proof.
  induction 1 as [| y rest Hrest IH Hy]; simpl.
  - constructor; constructor.
  - destruct (OrdersEx.String_as_OT.compare x y) eqn:E.
    + assert (Hxy : string_le x y) by (unfold string_le; congruence).
      constructor; [constructor; assumption |].
      constructor; [exact Hxy |].
      eapply Forall_impl; [| exact Hy].
      intros z Hz. eapply string_le_trans; eauto.
    + assert (Hxy : string_le x y) by (unfold string_le; congruence).
      constructor; [constructor; assumption |].
      constructor; [exact Hxy |].
      eapply Forall_impl; [| exact Hy].
      intros z Hz. eapply string_le_trans; eauto.
    + constructor; [exact IH |].
      apply Forall_forall. intros z Hz.
      apply Sort_insert_In in Hz. destruct Hz as [-> | Hz].
      * apply compare_Gt_le. exact E.
      * rewrite Forall_forall in Hy. auto.
Qed.

Lemma Sort_sorted (l : list string) :
  Sorted.StronglySorted string_le (Sort l).
Proof.
  induction l as [| x rest IH]; simpl; [constructor |].
  apply Sort_insert_sorted. exact IH.
Qed.

Lemma Compact_In (z : string) (l : list string) :
  In z (Compact l) <-> In z l.
Proof.
  induction l as [| x rest IH]; [simpl; tauto |].
  destruct rest as [| y rest'].
  - simpl. tauto.
  - change (Compact (x :: y :: rest'))
      with (if String.eqb x y then Compact (y :: rest')
            else x :: Compact (y :: rest')).
    destruct (String.eqb_spec x y) as [-> | Hne].
    + rewrite IH. simpl. tauto.
    + simpl In at 1. rewrite IH. simpl. tauto.
Qed.

Lemma string_le_antisym (x y : string) :
  string_le x y -> string_le y x -> x = y.
Proof.
  rewrite !string_le_lt_or_eq. intros [H1 | H1] [H2 | H2]; auto.
  exfalso. exact (string_lt_irrefl x (string_lt_trans x y x H1 H2)).
Qed.

Lemma Compact_sorted (l : list string) :
  Sorted.StronglySorted string_le l ->
  Sorted.StronglySorted string_lt (Compact l).
Proof.
  induction 1 as [| x rest Hrest IH Hx]; [constructor |].
  destruct rest as [| y rest'].
  - simpl. constructor; constructor.
  - change (Compact (x :: y :: rest'))
      with (if String.eqb x y then Compact (y :: rest')
            else x :: Compact (y :: rest')).
    destruct (String.eqb_spec x y) as [-> | Hne]; [exact IH |].
    constructor; [exact IH |].
    apply Forall_forall. intros z Hz. rewrite Compact_In in Hz.
    rewrite Forall_forall in Hx.
    assert (Hxy : string_le x y) by (apply Hx; simpl; auto).
    assert (Hyz : string_le y z).
    { simpl in Hz. destruct Hz as [-> | Hz].
      - apply string_le_lt_or_eq. auto.
      - inversion Hrest as [| ? ? _ Hy]; subst.
        rewrite Forall_forall in Hy. auto. }
    apply string_le_lt_or_eq in Hxy. destruct Hxy as [Hxy | ->];
      [| congruence].
    exact (string_lt_le_trans x y z Hxy Hyz).
Qed.

Lemma strictly_sorted_NoDup (l : list string) :
  Sorted.StronglySorted string_lt l -> NoDup l.
Proof.
  induction 1 as [| x rest _ IH Hx]; constructor; [| exact IH].
  intros Hin. rewrite Forall_forall in Hx.
  exact (string_lt_irrefl x (Hx x Hin)).
Qed.

Section ListNextPageFacts.
Context {ScopeInfo PluginInfo Time JsonObject ActionsMap : Type}.
Context {Response ApiClient Opt : Type}.

Local Abbreviation page :=
  (HostCatalogListResult ScopeInfo PluginInfo Time JsonObject ActionsMap
     Response).

Variable next_page_request :
  ApiClient -> page -> list Opt -> error + (page * Response).
Variable Compact_rest : list string -> list string.

Lemma ListNextPage_inv (c : Client ApiClient) (cur next : page)
    (opt : list Opt) :
  ListNextPage next_page_request Compact_rest c (Some cur) opt = inr next ->
  exists api decoded resp,
    client c = Some api
    /\ next_page_request api cur opt = inr (decoded, resp)
    /\ scopeId cur <> ""
    /\ ResponseType cur <> "complete" /\ ResponseType cur <> ""
    /\ next = ListNextPage_carry Compact_rest cur decoded resp.
Proof.
  unfold ListNextPage.
  destruct (String.eqb_spec (scopeId cur) "") as [E0 | E0]; [discriminate |].
  destruct (client c) as [api |]; [| discriminate].
  destruct (String.eqb_spec (ResponseType cur) "complete") as [E1 | E1];
    [discriminate |].
  destruct (String.eqb_spec (ResponseType cur) "") as [E2 | E2];
    [discriminate |].
  simpl.
  destruct (next_page_request api cur opt) as [e | [decoded resp]] eqn:E;
    [discriminate |].
  intros [= <-]. exists api, decoded, resp. auto 10.
Qed.

Lemma ListNextPage_returns
    (c : Client ApiClient) (cur next : page) (opt : list Opt)
    (Hcall : ListNextPage next_page_request Compact_rest c (Some cur) opt
             = inr next) :
  exists api decoded resp,
    client c = Some api
    /\ next_page_request api cur opt = inr (decoded, resp)
    /\ scopeId cur <> ""
    /\ ResponseType cur <> "complete" /\ ResponseType cur <> ""
    /\ Items next = Items decoded
    /\ EstItemCount next = EstItemCount decoded
    /\ ListToken next = ListToken decoded
    /\ ResponseType next = ResponseType decoded
    /\ Response_ next = Some resp
    /\ scopeId next = scopeId cur
    /\ recursive next = recursive cur
    /\ pageSize next = pageSize cur
    /\ (ResponseType decoded <> "complete" ->
        RemovedIds next = RemovedIds decoded
        /\ allRemovedIds next
           = (allRemovedIds cur ++ RemovedIds decoded)%list)
    /\ (ResponseType decoded = "complete" ->
        Sorted.StronglySorted string_lt (RemovedIds next)
        /\ NoDup (RemovedIds next)
        /\ forall id,
             In id (RemovedIds next)
             <-> In id (allRemovedIds cur) \/ In id (RemovedIds decoded)).
Proof.
  destruct (ListNextPage_inv c cur next opt Hcall)
    as (api & decoded & resp & Hc & Hreq & H0 & H1 & H2 & ->).
  exists api, decoded, resp.
  unfold ListNextPage_carry.
  destruct (String.eqb_spec (ResponseType decoded) "complete") as [E | E];
    simpl; repeat match goal with |- _ /\ _ => split end;
    try reflexivity; try assumption; try contradiction; try congruence.
  - intros _.
    assert (S : Sorted.StronglySorted string_lt
                  (Compact (Sort (allRemovedIds cur ++ RemovedIds decoded))))
      by (apply Compact_sorted, Sort_sorted).
    split; [exact S |]. split; [exact (strictly_sorted_NoDup _ S) |].
    intros id. rewrite Compact_In, Sort_In, in_app_iff. reflexivity.
  - intros _. auto.
Qed.

(** X8. When [ListNextPage] returns a page, the client was there, the
    current page had a scope id and a response type other than
    "complete" and the empty one, and the page is the decoded one with
    the scope id, the recursive flag and the page size of the current
    page. If the decoded page is not complete, its removed ids are
    appended to the ones cached so far. If it is complete, [RemovedIds]
    of the page returned holds exactly the ids cached and the ones just
    decoded, each once, in ascending order. *)
Theorem ListNextPage_carries_and_collects
    (c : Client ApiClient) (cur next : page) (opt : list Opt)
    (Hcall : ListNextPage next_page_request Compact_rest c (Some cur) opt
             = inr next) :
  exists api decoded resp,
    client c = Some api
    /\ next_page_request api cur opt = inr (decoded, resp)
    /\ scopeId cur <> ""
    /\ ResponseType cur <> "complete" /\ ResponseType cur <> ""
    /\ Items next = Items decoded
    /\ EstItemCount next = EstItemCount decoded
    /\ ListToken next = ListToken decoded
    /\ ResponseType next = ResponseType decoded
    /\ Response_ next = Some resp
    /\ scopeId next = scopeId cur
    /\ recursive next = recursive cur
    /\ pageSize next = pageSize cur
    /\ (ResponseType decoded <> "complete" ->
        RemovedIds next = RemovedIds decoded
        /\ allRemovedIds next
           = (allRemovedIds cur ++ RemovedIds decoded)%list)
    /\ (ResponseType decoded = "complete" ->
        Sorted.StronglySorted string_lt (RemovedIds next)
        /\ NoDup (RemovedIds next)
        /\ forall id,
             In id (RemovedIds next)
             <-> In id (allRemovedIds cur) \/ In id (RemovedIds decoded)).
Proof.
  exact (ListNextPage_returns c cur next opt Hcall).
Qed.

(** X9. Over a pagination that ends with a complete page, [RemovedIds]
    of that page holds exactly the ids that were cached in the page the
    pagination started from and the ids removed on any page since, each
    once, in ascending order. *)
Theorem pagination_collects_all_removed_ids
    (c : Client ApiClient) (opt : list Opt)
    (first last : page) (decoded : list page)
    (Hpages : pagination next_page_request Compact_rest c opt
                first decoded last)
    (Hcomplete : ResponseType last = "complete") :
  Sorted.StronglySorted string_lt (RemovedIds last)
  /\ NoDup (RemovedIds last)
  /\ forall id,
       In id (RemovedIds last)
       <-> In id (allRemovedIds first)
           \/ exists d, In d decoded /\ In id (RemovedIds d).
Proof.
  induction Hpages
    as [api cur d resp next Hc Hreq Hcall
       | api cur d resp mid rest next Hc Hreq Hcall Hrest IH].
  - destruct (ListNextPage_returns c cur next opt Hcall)
      as (api' & d' & resp' & Hc' & Hreq' & _ & _ & _ & _ & _ & _ & HT
          & _ & _ & _ & _ & _ & HC).
    rewrite Hc in Hc'. injection Hc' as <-.
    rewrite Hreq in Hreq'. injection Hreq' as <- <-.
    rewrite HT in Hcomplete. destruct (HC Hcomplete) as (S & N & M).
    split; [exact S |]. split; [exact N |].
    intros id. rewrite M. split.
    + intros [H | H]; [auto |]. right. exists d. simpl. auto.
    + intros [H | (d0 & [<- | []] & H)]; auto.
  - destruct (IH Hcomplete) as (S & N & M).
    split; [exact S |]. split; [exact N |].
    destruct (ListNextPage_returns c cur mid opt Hcall)
      as (api' & d' & resp' & Hc' & Hreq' & _ & _ & _ & _ & _ & _ & HT
          & _ & _ & _ & _ & HA & _).
    rewrite Hc in Hc'. injection Hc' as <-.
    rewrite Hreq in Hreq'. injection Hreq' as <- <-.
    assert (Hmid : ResponseType d <> "complete").
    { rewrite <- HT.
      inversion Hrest
        as [? ? ? ? ? _ _ Hn | ? ? ? ? ? ? ? _ _ Hn _];
        subst;
        destruct (ListNextPage_inv c mid _ opt Hn)
          as (? & ? & ? & _ & _ & _ & Hne & _); exact Hne. }
    destruct (HA Hmid) as (_ & HAll).
    intros id. rewrite M, HAll, in_app_iff. split.
    + intros [[H | H] | (d0 & Hd0 & H)]; auto.
      * right. exists d. simpl. auto.
      * right. exists d0. simpl. auto.
    + intros [H | (d0 & [<- | Hd0] & H)]; auto.
      right. exists d0. auto.
Qed.

End ListNextPageFacts.

Lemma slice_set_Some {A : Type} (s : list A) (i : nat) (x : A) :
  i < length s -> exists s', slice_set s i x = Some s'.
Proof.
  revert i. induction s as [| y rest IH]; intros i Hi; simpl in *; [lia |].
  destruct i as [| j]; [eauto |].
  destruct (IH j) as [rest' ->]; [lia | eauto].
Qed.

Lemma slice_set_None {A : Type} (s : list A) (i : nat) (x : A) :
  length s <= i -> slice_set s i x = None.
Proof.
  revert i. induction s as [| y rest IH]; intros i Hi; simpl in *;
    [reflexivity |].
  destruct i as [| j]; [lia |]. rewrite IH by lia. reflexivity.
Qed.

Lemma slice_set_nth {A : Type} (s s' : list A) (i j : nat) (x : A) :
  slice_set s i x = Some s' ->
  nth_error s' j = if Nat.eqb j i then Some x else nth_error s j.
Proof.
  revert s' i j. induction s as [| y rest IH]; intros s' i j; simpl;
    [discriminate |].
  destruct i as [| i'].
  - intros [= <-]. destruct j; reflexivity.
  - destruct (slice_set rest i' x) as [rest' |] eqn:E; [| discriminate].
    intros [= <-]. destruct j as [| j']; [reflexivity |].
    simpl. exact (IH rest' i' j' E).
Qed.

Lemma slice_set_length {A : Type} (s s' : list A) (i : nat) (x : A) :
  slice_set s i x = Some s' -> length s' = length s.
Proof.
  revert s' i. induction s as [| y rest IH]; intros s' i; simpl;
    [discriminate |].
  destruct i as [| i'].
  - intros [= <-]. reflexivity.
  - destruct (slice_set rest i' x) as [rest' |] eqn:E; [| discriminate].
    intros [= <-]. simpl. f_equal. exact (IH rest' i' E).
Qed.

Lemma index_map_set_same (m : index_map) (k : string) (v : nat) :
  index_map_set m k v k = Some v.
Proof. unfold index_map_set. rewrite String.eqb_refl. reflexivity. Qed.

Lemma index_map_set_other (m : index_map) (k k' : string) (v : nat) :
  k' <> k -> index_map_set m k v k' = m k'.
Proof.
  intros H. unfold index_map_set.
  destruct (String.eqb_spec k' k); [contradiction | reflexivity].
Qed.

Lemma nth_error_lt {A : Type} (l : list A) (i : nat) (x : A) :
  nth_error l i = Some x -> i < length l.
Proof. intros H. apply nth_error_Some. rewrite H. discriminate. Qed.

Section ListFacts.
Context {ScopeInfo PluginInfo Time JsonObject ActionsMap : Type}.

Local Abbreviation item :=
  (HostCatalog ScopeInfo PluginInfo Time JsonObject ActionsMap).
Local Abbreviation state := (list (option item) * index_map)%type.

Lemma indexed_in_range (dead : list string) (st : state) (id : string)
    (i : nat) :
  indexed dead st -> snd st id = Some i -> ~ In id dead ->
  i < length (fst st).
Proof.
  intros [_ Hb] Hi Hd. destruct (Hb id i Hi Hd) as (it & Hn & _).
  exact (nth_error_lt _ _ _ Hn).
Qed.

Lemma merge_item_spec (st : state) (it : item) :
  indexed [] st ->
  exists st',
    merge_item st (Some it) = Some st'
    /\ indexed [] st'
    /\ (forall id, item_of st' id
                   = if String.eqb id (Id it) then Some it else item_of st id)
    /\ (forall id i, snd st id = Some i -> snd st' id = Some i)
    /\ (forall i x, nth_error (fst st) i = Some (Some x) ->
                    Id x <> Id it ->
                    nth_error (fst st') i = Some (Some x)).
Proof.
  destruct st as [allItems idToIndex]. intros W.
  pose proof W as [Wa Wb]. simpl in Wa, Wb.
  unfold merge_item. cbv beta iota zeta.
  destruct (idToIndex (Id it)) as [i |] eqn:E.
  - assert (Hi : i < length allItems)
      by (exact (indexed_in_range [] (allItems, idToIndex) (Id it) i W E
                   (fun H => H))).
    destruct (slice_set_Some allItems i (Some it) Hi) as [allItems' Hset].
    rewrite Hset. eexists. split; [reflexivity |].
    pose proof (fun j => slice_set_nth _ _ _ j _ Hset) as Hnth.
    assert (Hsame : forall j x, nth_error allItems j = Some (Some x) ->
                      Id x <> Id it -> Nat.eqb j i = false).
    { intros j x Hj Hne. apply Nat.eqb_neq. intros ->.
      destruct (Wb (Id it) i E (fun H => H)) as (y & Hy & Hid).
      rewrite Hj in Hy. injection Hy as ->. contradiction. }
    split; [split |]; simpl.
    + intros j x Hj. rewrite Hnth in Hj.
      destruct (Nat.eqb_spec j i) as [-> | Hne].
      * injection Hj as <-. exists it. auto.
      * exact (Wa j x Hj).
    + intros id j Hj _. rewrite Hnth.
      destruct (Wb id j Hj (fun H => H)) as (x & Hx & Hid).
      destruct (Nat.eqb_spec j i) as [-> | Hne].
      * exists it. split; [reflexivity |].
        destruct (Wb (Id it) i E (fun H => H)) as (y & Hy & Hid').
        congruence.
      * exists x. auto.
    + split; [| split].
      * intros id. unfold item_of. simpl.
        destruct (String.eqb_spec id (Id it)) as [-> | Hne].
        { rewrite E, Hnth, Nat.eqb_refl. reflexivity. }
        destruct (idToIndex id) as [j |] eqn:Ej; [| reflexivity].
        destruct (Wb id j Ej (fun H => H)) as (x & Hx & Hid).
        rewrite Hnth, (Hsame j x Hx) by congruence. reflexivity.
      * auto.
      * intros j x Hj Hne. rewrite Hnth, (Hsame j x Hj Hne). exact Hj.
  - eexists. split; [reflexivity |].
    assert (Hfresh : forall j x, nth_error allItems j = Some (Some x) ->
                       Id x <> Id it).
    { intros j x Hj Heq. destruct (Wa j _ Hj) as (y & [= <-] & Hy & _).
      congruence. }
    split; [split |]; simpl.
    + intros j x Hj.
      destruct (Nat.lt_ge_cases j (length allItems)) as [Hlt | Hge].
      * rewrite nth_error_app1 in Hj by exact Hlt.
        destruct (Wa j x Hj) as (y & -> & Hy & Hd).
        exists y. split; [reflexivity |]. split; [| exact Hd].
        rewrite index_map_set_other; [exact Hy |].
        exact (Hfresh j y Hj).
      * rewrite nth_error_app2 in Hj by exact Hge.
        destruct (j - length allItems) as [| k] eqn:Ek; simpl in Hj.
        { injection Hj as <-. exists it. split; [reflexivity |].
          split; [| auto].
          replace j with (length allItems) by lia.
          apply index_map_set_same. }
        destruct k; discriminate.
    + intros id j Hj _. unfold index_map_set in Hj.
      destruct (String.eqb_spec id (Id it)) as [-> | Hne].
      * injection Hj as <-. exists it.
        rewrite nth_error_app2, Nat.sub_diag by lia. auto.
      * destruct (Wb id j Hj (fun H => H)) as (x & Hx & Hid).
        exists x. split; [| exact Hid].
        rewrite nth_error_app1; [exact Hx |].
        exact (nth_error_lt _ _ _ Hx).
    + split; [| split].
      * intros id. unfold item_of. simpl. unfold index_map_set.
        destruct (String.eqb_spec id (Id it)) as [-> | Hne].
        { rewrite nth_error_app2, Nat.sub_diag by lia. reflexivity. }
        destruct (idToIndex id) as [j |] eqn:Ej; [| reflexivity].
        destruct (Wb id j Ej (fun H => H)) as (x & Hx & Hid).
        rewrite nth_error_app1 by exact (nth_error_lt _ _ _ Hx).
        rewrite Hx. reflexivity.
      * intros id j Hj. rewrite index_map_set_other; [exact Hj |].
        congruence.
      * intros j x Hj _. rewrite nth_error_app1; [exact Hj |].
        exact (nth_error_lt _ _ _ Hj).
Qed.

Lemma find_app_first {A : Type} (f : A -> bool) (l l' : list A) :
  find f (l ++ l')
  = match find f l with Some x => Some x | None => find f l' end.
Proof.
  induction l as [| x rest IH]; simpl; [reflexivity |].
  destruct (f x); [reflexivity | exact IH].
Qed.

Lemma latest_with_id_cons (id : string) (it : item) (l : list item) :
  latest_with_id id (it :: l)
  = match latest_with_id id l with
    | Some x => Some x
    | None => if String.eqb id (Id it) then Some it else None
    end.
Proof.
  unfold latest_with_id. simpl rev. rewrite find_app_first. reflexivity.
Qed.

Lemma latest_with_id_app (id : string) (l l' : list item) :
  latest_with_id id (l ++ l')
  = match latest_with_id id l' with
    | Some x => Some x
    | None => latest_with_id id l
    end.
Proof.
  unfold latest_with_id. rewrite rev_app_distr, find_app_first. reflexivity.
Qed.

Lemma merge_page_spec (page : list item) :
  forall st : state,
    indexed [] st ->
    exists st',
      merge_page st (map Some page) = Some st'
      /\ indexed [] st'
      /\ (forall id, item_of st' id
                     = match latest_with_id id page with
                       | Some x => Some x
                       | None => item_of st id
                       end)
      /\ (forall id i, snd st id = Some i -> snd st' id = Some i).
Proof.
  induction page as [| it rest IH]; intros st W.
  - exists st. simpl. auto.
  - destruct (merge_item_spec st it W) as (st1 & E1 & W1 & I1 & P1 & _).
    destruct (IH st1 W1) as (st' & E' & W' & I' & P').
    exists st'. simpl map. simpl merge_page. rewrite E1.
    split; [exact E' |]. split; [exact W' |]. split; [| auto].
    intros id. rewrite I', latest_with_id_cons, I1.
    destruct (latest_with_id id rest); [reflexivity |].
    destruct (String.eqb id (Id it)); reflexivity.
Qed.

Lemma merge_pages_spec (pages : list (list item)) :
  forall st : state,
    indexed [] st ->
    exists st',
      merge_pages st (map (map Some) pages) = Some st'
      /\ indexed [] st'
      /\ (forall id, item_of st' id
                     = match latest_with_id id (concat pages) with
                       | Some x => Some x
                       | None => item_of st id
                       end)
      /\ (forall id i, snd st id = Some i -> snd st' id = Some i).
Proof.
  induction pages as [| page rest IH]; intros st W.
  - exists st. simpl. auto.
  - destruct (merge_page_spec page st W) as (st1 & E1 & W1 & I1 & P1).
    destruct (IH st1 W1) as (st' & E' & W' & I' & P').
    exists st'. simpl map. simpl merge_pages. rewrite E1.
    split; [exact E' |]. split; [exact W' |]. split; [| auto].
    intros id. simpl concat. rewrite I', latest_with_id_app, I1.
    destruct (latest_with_id id (concat rest)); reflexivity.
Qed.

Lemma index_items_spec (l : list item) :
  forall (pre : list item) (m : index_map),
    indexed [] (map Some pre, m) ->
    NoDup (map Id (pre ++ l)) ->
    exists m',
      index_items (length pre) (map Some l) m = Some m'
      /\ indexed [] (map Some (pre ++ l), m').
Proof.
  induction l as [| it rest IH]; intros pre m W N.
  - exists m. rewrite app_nil_r. auto.
  - simpl map. simpl index_items.
    assert (Hnew : m (Id it) = None).
    { destruct (m (Id it)) as [i |] eqn:E; [| reflexivity].
      exfalso. destruct W as [_ Wb].
      destruct (Wb (Id it) i E (fun H => H)) as (x & Hx & Hid).
      simpl in Hx. rewrite nth_error_map in Hx.
      destruct (nth_error pre i) as [y |] eqn:Ey; [| discriminate].
      injection Hx as ->.
      rewrite map_app in N. simpl in N.
      apply NoDup_remove_2 in N. apply N.
      apply in_or_app. left. rewrite <- Hid.
      apply in_map. exact (nth_error_In _ _ Ey). }
    destruct (merge_item_spec (map Some pre, m) it W)
      as (st1 & E1 & W1 & _).
    unfold merge_item in E1. rewrite Hnew in E1. injection E1 as <-.
    rewrite length_map in W1.
    replace (map Some pre ++ [Some it])%list
      with (map Some (pre ++ [it])) in W1
      by (rewrite map_app; reflexivity).
    destruct (IH (pre ++ [it])%list _ W1) as (m' & E' & W').
    { rewrite <- app_assoc. exact N. }
    rewrite length_app in E'. simpl in E'.
    rewrite Nat.add_1_r in E'.
    exists m'. split; [exact E' |].
    rewrite <- app_assoc in W'. exact W'.
Qed.

Lemma indexed_empty : indexed [] (@nil (option item), index_map_empty).
Proof.
  split; simpl.
  - intros [| i] x H; discriminate.
  - intros id i H. discriminate.
Qed.

Lemma item_of_first (l : list item) (m : index_map) (id : string) :
  indexed [] (map Some l, m) ->
  item_of (map Some l, m) id = latest_with_id id l.
Proof.
  intros [Wa Wb]. simpl in Wa, Wb. unfold item_of. simpl.
  destruct (m id) as [i |] eqn:E.
  - destruct (Wb id i E (fun H => H)) as (x & Hx & Hid). rewrite Hx.
    rewrite nth_error_map in Hx.
    destruct (nth_error l i) as [y |] eqn:Ey; [| discriminate].
    injection Hx as <-.
    unfold latest_with_id.
    destruct (find (fun it => String.eqb id (Id it)) (rev l)) as [z |] eqn:F.
    + apply find_some in F. destruct F as [Hin Hz].
      apply String.eqb_eq in Hz. apply in_rev in Hin.
      apply In_nth_error in Hin. destruct Hin as [j Hj].
      assert (Hj' : nth_error (map Some l) j = Some (Some z))
        by (rewrite nth_error_map, Hj; reflexivity).
      destruct (Wa j _ Hj') as (z' & [= <-] & Hz' & _).
      assert (Hi' : nth_error (map Some l) i = Some (Some y))
        by (rewrite nth_error_map, Ey; reflexivity).
      destruct (Wa i _ Hi') as (y' & [= <-] & Hy' & _).
      assert (i = j) by congruence. subst j. congruence.
    + exfalso.
      assert (Hy : In y (rev l))
        by (apply -> in_rev; exact (nth_error_In _ _ Ey)).
      pose proof (find_none _ _ F y Hy) as Hf. simpl in Hf.
      rewrite <- Hid, String.eqb_refl in Hf. discriminate.
  - unfold latest_with_id.
    destruct (find (fun it => String.eqb id (Id it)) (rev l)) as [z |] eqn:F;
      [| reflexivity].
    exfalso. apply find_some in F. destruct F as [Hin Hz].
    apply String.eqb_eq in Hz. apply in_rev in Hin.
    apply In_nth_error in Hin. destruct Hin as [j Hj].
    assert (Hj' : nth_error (map Some l) j = Some (Some z))
      by (rewrite nth_error_map, Hj; reflexivity).
    destruct (Wa j _ Hj') as (z' & [= <-] & Hz' & _). congruence.
Qed.


End ListFacts.

Section RemovalFacts.
Context {ScopeInfo PluginInfo Time JsonObject ActionsMap : Type}.

Local Abbreviation item :=
  (HostCatalog ScopeInfo PluginInfo Time JsonObject ActionsMap).
Local Abbreviation state := (list (option item) * index_map)%type.

Lemma indexed_ext (dead dead' : list string) (st : state) :
  (forall id, In id dead <-> In id dead') ->
  indexed dead st -> indexed dead' st.
Proof.
  intros H [Wa Wb]. split.
  - intros i x Hx. destruct (Wa i x Hx) as (it & E & Hi & Hd).
    exists it. rewrite <- H. auto.
  - intros id i Hi Hd. apply Wb; [exact Hi |]. rewrite H. exact Hd.
Qed.

Lemma remove_item_spec (dead : list string) (st : state) (id : string) :
  indexed dead st -> ~ In id dead ->
  match snd st id with
  | None => remove_item st id = Some st /\ indexed (id :: dead) st
  | Some i =>
      if Nat.eqb (S i) (length (fst st)) then remove_item st id = None
      else
        exists st',
          remove_item st id = Some st'
          /\ indexed (id :: dead) st'
          /\ S (length (fst st')) = length (fst st)
          /\ (forall x, In x (fst st')
                        <-> In x (fst st)
                            /\ exists it, x = Some it /\ Id it <> id)
  end.
Proof.
  destruct st as [allItems idToIndex]. intros W Hd.
  pose proof W as [Wa Wb]. simpl in Wa, Wb. simpl snd. simpl fst.
  unfold remove_item.
  destruct (idToIndex id) as [i |] eqn:E.
  2:{ split; [reflexivity |]. split; simpl.
      - intros j x Hx. destruct (Wa j x Hx) as (it & -> & Hi & Hnd).
        exists it. split; [reflexivity |]. split; [exact Hi |].
        intros [H | H]; [rewrite <- H in Hi; congruence | contradiction].
      - intros id' j Hj Hnd. apply Wb; [exact Hj |]. intros H. apply Hnd.
        right. exact H. }
  destruct (Wb id i E Hd) as (r & Hr & Hrid).
  pose proof (nth_error_lt _ _ _ Hr) as Hi.
  set (n := length allItems) in *.
  assert (Hlast : exists l, nth_error allItems (n - 1) = Some (Some l)
                            /\ idToIndex (Id l) = Some (n - 1)
                            /\ ~ In (Id l) dead).
  { destruct (nth_error allItems (n - 1)) as [x |] eqn:Ex.
    - destruct (Wa _ _ Ex) as (l & -> & Hl & Hld). eauto.
    - apply nth_error_None in Ex. fold n in Ex. lia. }
  destruct Hlast as (l & Hl & Hlidx & Hld). rewrite Hl.
  destruct (slice_set_Some allItems i (Some l) Hi) as [moved Hset].
  rewrite Hset.
  pose proof (slice_set_length _ _ _ _ Hset) as Hlen. fold n in Hlen.
  pose proof (fun j => slice_set_nth _ _ _ j _ Hset) as Hnth.
  rewrite Hlen. rewrite nth_error_firstn, Hnth, Nat.eqb_refl.
  destruct (Nat.eqb_spec (S i) n) as [Hin | Hin].
  { replace (Nat.ltb i (n - 1)) with false; [reflexivity |].
    symmetry. apply Nat.ltb_ge. lia. }
  replace (Nat.ltb i (n - 1)) with true
    by (symmetry; apply Nat.ltb_lt; lia).
  eexists. split; [reflexivity |].
  assert (Hlid : Id l <> id).
  { intros H. rewrite H in Hlidx. rewrite E in Hlidx.
    injection Hlidx as ->. lia. }
  assert (Hcut : forall j,
            nth_error (firstn (n - 1) moved) j
            = if Nat.ltb j (n - 1)
              then if Nat.eqb j i then Some (Some l)
                   else nth_error allItems j
              else None).
  { intros j. rewrite nth_error_firstn, Hnth. reflexivity. }
  split; [split |]; simpl fst; simpl snd.
  - intros j x Hx. rewrite Hcut in Hx.
    destruct (Nat.ltb_spec j (n - 1)) as [Hj | Hj]; [| discriminate].
    destruct (Nat.eqb_spec j i) as [-> | Hji].
    + injection Hx as <-. exists l. split; [reflexivity |].
      split; [apply index_map_set_same |].
      intros [H | H]; [congruence | contradiction].
    + destruct (Wa j x Hx) as (y & -> & Hy & Hyd).
      exists y. split; [reflexivity |]. split.
      * rewrite index_map_set_other; [exact Hy |].
        intros H. rewrite H in Hy. rewrite Hlidx in Hy.
        injection Hy as <-. lia.
      * intros [H | H]; [| contradiction].
        rewrite <- H in Hy. rewrite E in Hy. injection Hy as <-. lia.
  - intros id' j Hj Hnd. rewrite Hcut. unfold index_map_set in Hj.
    destruct (String.eqb_spec id' (Id l)) as [-> | Hne].
    + injection Hj as <-.
      replace (Nat.ltb i (n - 1)) with true
        by (symmetry; apply Nat.ltb_lt; lia).
      rewrite Nat.eqb_refl. exists l. auto.
    + assert (Hnd' : ~ In id' dead) by (intros H; apply Hnd; right; exact H).
      assert (Hid' : id' <> id) by (intros H; apply Hnd; left; auto).
      destruct (Wb id' j Hj Hnd') as (y & Hy & Hyid).
      assert (Hji : j <> i).
      { intros ->. rewrite Hr in Hy. injection Hy as <-. congruence. }
      assert (Hjn : j <> n - 1).
      { intros ->. rewrite Hl in Hy. injection Hy as <-. congruence. }
      pose proof (nth_error_lt _ _ _ Hy) as Hjlt. fold n in Hjlt.
      replace (Nat.ltb j (n - 1)) with true
        by (symmetry; apply Nat.ltb_lt; lia).
      replace (Nat.eqb j i) with false
        by (symmetry; apply Nat.eqb_neq; exact Hji).
      exists y. auto.
  - split.
    + rewrite length_firstn, Hlen. lia.
    + intros x. split.
      * intros Hx. apply In_nth_error in Hx. destruct Hx as [j Hj].
        rewrite Hcut in Hj.
        destruct (Nat.ltb_spec j (n - 1)) as [Hjlt | Hjlt]; [| discriminate].
        destruct (Nat.eqb_spec j i) as [Hji | Hji].
        { injection Hj as <-. split; [exact (nth_error_In _ _ Hl) |].
          exists l. auto. }
        split; [exact (nth_error_In _ _ Hj) |].
        destruct (Wa j x Hj) as (y & -> & Hy & _).
        exists y. split; [reflexivity |].
        intros H. rewrite H in Hy. rewrite E in Hy. injection Hy as <-.
        lia.
      * intros [Hx (y & -> & Hyid)].
        apply In_nth_error in Hx. destruct Hx as [j Hj].
        pose proof (nth_error_lt _ _ _ Hj) as Hjlt. fold n in Hjlt.
        assert (Hji : j <> i).
        { intros ->. rewrite Hr in Hj. injection Hj as <-. congruence. }
        destruct (Nat.eq_dec j (n - 1)) as [-> | Hjn].
        { rewrite Hl in Hj. injection Hj as <-.
          apply (nth_error_In _ i). rewrite Hcut.
          replace (Nat.ltb i (n - 1)) with true
            by (symmetry; apply Nat.ltb_lt; lia).
          rewrite Nat.eqb_refl. reflexivity. }
        apply (nth_error_In _ j). rewrite Hcut.
        replace (Nat.ltb j (n - 1)) with true
          by (symmetry; apply Nat.ltb_lt; lia).
        replace (Nat.eqb j i) with false
          by (symmetry; apply Nat.eqb_neq; exact Hji).
        exact Hj.
Qed.

Lemma remove_items_spec (removed : list string) :
  forall (dead : list string) (st st' : state),
    indexed dead st -> NoDup removed ->
    (forall id, In id removed -> ~ In id dead) ->
    remove_items st removed = Some st' ->
    indexed (removed ++ dead) st'
    /\ (forall x, In x (fst st')
                  <-> In x (fst st)
                      /\ exists it, x = Some it /\ ~ In (Id it) removed).
Proof.
  induction removed as [| id rest IH]; intros dead st st' W N D.
  - simpl. intros [= <-]. split; [exact W |].
    intros x. split; [| tauto].
    intros Hx. split; [exact Hx |].
    apply In_nth_error in Hx. destruct Hx as [i Hi].
    destruct W as [Wa _]. destruct (Wa i x Hi) as (it & -> & _).
    exists it. auto.
  - simpl remove_items.
    destruct (remove_item st id) as [st1 |] eqn:E1; [| discriminate].
    intros E'.
    assert (Hid : ~ In id dead) by (apply D; simpl; auto).
    assert (H1 : indexed (id :: dead) st1
                 /\ (forall x, In x (fst st1)
                               <-> In x (fst st)
                                   /\ exists it, x = Some it /\ Id it <> id)).
    { pose proof (remove_item_spec dead st id W Hid) as Sp.
      destruct (snd st id) as [i |] eqn:Ei.
      - destruct (Nat.eqb (S i) (length (fst st))); [congruence |].
        destruct Sp as (st1' & E1' & W1 & _ & M1).
        rewrite E1 in E1'. injection E1' as <-. auto.
      - destruct Sp as [E1' W1]. rewrite E1 in E1'. injection E1' as <-.
        split; [exact W1 |]. intros x. split; [| tauto].
        intros Hx. split; [exact Hx |].
        apply In_nth_error in Hx. destruct Hx as [j Hj].
        destruct W as [Wa _]. destruct (Wa j x Hj) as (it & -> & Hit & _).
        exists it. split; [reflexivity |].
        intros H. rewrite H in Hit.
        assert (X : Some j = None :> option nat)
          by (transitivity (snd st1 id); [symmetry; exact Hit | exact Ei]).
        discriminate. }
    destruct H1 as [W1 M1].
    inversion N as [| ? ? Hnotin N']; subst.
    destruct (IH (id :: dead) st1 st' W1 N') as [W' M']; [| exact E' |].
    { intros id' Hin [<- | H]; [contradiction |].
      apply (D id'); simpl; auto. }
    split.
    + apply (indexed_ext (rest ++ id :: dead)); [| exact W'].
      intros x. simpl. rewrite !in_app_iff. simpl. tauto.
    + intros x. rewrite M', M1. split.
      * intros [[Hx (it & -> & Hne)] (it' & [= <-] & Hrest)].
        split; [exact Hx |]. exists it. split; [reflexivity |].
        intros [H | H]; [congruence | contradiction].
      * intros [Hx (it & -> & Hn)]. split; [split |].
        { exact Hx. }
        { exists it. split; [reflexivity |]. intros H. apply Hn. left. auto. }
        { exists it. split; [reflexivity |]. intros H. apply Hn. right. auto. }
Qed.

(** X11. [List] removes an item by moving the last item over it and
    cutting the slice by one. An id that the index does not know leaves
    everything as it is. For an id whose item does not stand last, the
    item is removed, every other item stays, and the index follows the
    item that moved. For the id of the item that stands last, the
    statement that records the moved item reads one place past the end
    of the cut slice: the call panics. *)
Theorem removal_moves_the_last_item_or_panics
    (dead : list string) (st : state) (id : string)
    (Hst : indexed dead st) (Hid : ~ In id dead) :
  (snd st id = None -> remove_item st id = Some st)
  /\ (forall i, snd st id = Some i -> i < length (fst st))
  /\ (forall i, snd st id = Some i -> S i = length (fst st) ->
        remove_item st id = None)
  /\ (forall i, snd st id = Some i -> S i <> length (fst st) ->
        exists st',
          remove_item st id = Some st'
          /\ indexed (id :: dead) st'
          /\ S (length (fst st')) = length (fst st)
          /\ (forall x, In x (fst st')
                        <-> In x (fst st)
                            /\ exists it, x = Some it /\ Id it <> id)).
Proof.
  pose proof (remove_item_spec dead st id Hst Hid) as Sp.
  repeat match goal with |- _ /\ _ => split end.
  - intros E. rewrite E in Sp. apply Sp.
  - intros i E. exact (indexed_in_range dead st id i Hst E Hid).
  - intros i E Hi. rewrite E in Sp.
    apply Nat.eqb_eq in Hi. rewrite Hi in Sp. exact Sp.
  - intros i E Hi. rewrite E in Sp.
    apply Nat.eqb_neq in Hi. rewrite Hi in Sp. exact Sp.
Qed.

(** X12. When the removal of the ids [removed], all different, from the
    collected items comes to its end without a panic, the items left are
    exactly the collected ones whose id is not among [removed], and the
    index still leads from the id of every item left to its place. *)
Theorem removals_leave_the_items_not_removed
    (st st' : state) (removed : list string)
    (Hst : indexed [] st) (Hremoved : NoDup removed)
    (Hrun : remove_items st removed = Some st') :
  (forall x, In x (fst st')
             <-> In x (fst st)
                 /\ exists it, x = Some it /\ ~ In (Id it) removed)
  /\ (forall i it, nth_error (fst st') i = Some (Some it) ->
                   snd st' (Id it) = Some i)
  /\ (forall i j it1 it2,
        nth_error (fst st') i = Some (Some it1) ->
        nth_error (fst st') j = Some (Some it2) ->
        Id it1 = Id it2 -> i = j).
Proof.
  destruct (remove_items_spec removed [] st st' Hst Hremoved
              (fun _ _ H => H) Hrun) as [[Wa Wb] M].
  split; [exact M |].
  assert (HA : forall i it, nth_error (fst st') i = Some (Some it) ->
                 snd st' (Id it) = Some i).
  { intros i it Hi. destruct (Wa i _ Hi) as (y & [= <-] & Hy & _).
    exact Hy. }
  split; [exact HA |].
  intros i j it1 it2 H1 H2 Hid.
  apply HA in H1. apply HA in H2. congruence.
Qed.

End RemovalFacts.

(** ** The further properties at concrete inputs *)

Lemma getObject_guard_holds_in_every_run_witness :
  get_consistent string (mkGetObjectStream (mkChan true) true)
  /\ Close string (mkGetObjectStream (mkChan true) true)
     = Some (mkGetObjectStream (mkChan true) true, tt).
Proof.
  pose proof
    (getObject_guard_holds_in_every_run string string string (fun _ => "v")
       (x <- getObject_do string string string (fun _ => "v")
               (call_getObjectServer_Send string string string (Some "a")) ;;
        Ret x)
       (x <- getObject_do string string string (fun _ => "v")
               (call_getObjectClient_CloseSend string string string) ;;
        Ret x)
       newGetObjectStream (mkGetObjectStream (mkChan true) true)
       Panic (Ret None)) as H.
  refine ((fun H' => conj (proj1 H') (proj2 (proj2 H'))) (H _ _ _ _)).
  - reflexivity.
  - apply (getObject_caller_call string string string (fun _ => "v")).
    intros x. apply getObject_caller_done.
  - apply (getObject_caller_call string string string (fun _ => "v")).
    intros x. apply getObject_caller_done.
  - eapply steps_cons; [apply step_succs; cbn; left; reflexivity |].
    eapply steps_cons; [apply step_succs; cbn; left; reflexivity |].
    eapply steps_cons; [apply step_succs; cbn; left; reflexivity |].
    eapply steps_cons; [apply step_succs; cbn; left; reflexivity |].
    apply steps_refl.
Defined.

Lemma putObject_guards_hold_in_every_run_witness :
  put_consistent string string
    (mkPutObjectStream (mkChan true) (mkChan true) true true).
Proof.
  refine (proj1
    (putObject_guards_hold_in_every_run string string string (fun _ => "v")
       (x <- putObject_do string string string (fun _ => "v")
               (call_putObjectServer_SendAndClose string string string
                  (Some "R")) ;;
        Ret x)
       (x <- putObject_do string string string (fun _ => "v")
               (call_putObjectClient_CloseAndRecv string string string) ;;
        Ret x)
       newPutObjectStream
       (mkPutObjectStream (mkChan true) (mkChan true) true true)
       (Ret None) (Ret (Some "R", None)) _ _ _ _)).
  - split; reflexivity.
  - apply (putObject_caller_call string string string (fun _ => "v")).
    intros x. apply putObject_caller_done.
  - apply (putObject_caller_call string string string (fun _ => "v")).
    intros x. apply putObject_caller_done.
  - eapply steps_cons; [apply step_succs; cbn; left; reflexivity |].
    eapply steps_cons; [apply step_succs; cbn; left; reflexivity |].
    eapply steps_cons; [apply step_succs; cbn; left; reflexivity |].
    eapply steps_cons; [apply step_succs; cbn; left; reflexivity |].
    apply steps_refl.
Defined.

(** Scenario C of the specification: requests "x", "y", answer "R". *)
Lemma upload_delivers_in_order_then_answers_witness :
  length ["x"; "y"] < 3
  /\ always_ends
       (fun cfg =>
          cfg = (mkPutObjectStream (mkChan true) (mkChan true) true true,
                 Ret ([(Some "x", None); (Some "y", None);
                       (None, Some io_EOF)],
                      Some None),
                 Ret ([None; None], (Some "R", None))))
       (newPutObjectStream,
        store string string newPutObjectStream_server 3 (Some "R") [],
        upload string string newPutObjectStream_client ["x"; "y"] []).
Proof.
  split; [simpl; lia |].
  refine (proj1 (upload_delivers_in_order_then_answers string string
                   ["x"; "y"] "R" 3 _)).
  simpl. lia.
Defined.

Lemma SendMsg_hands_off_nil_payload_witness :
  put_consistent string string newPutObjectStream
  /\ always_ends
       (fun cfg =>
          cfg = (mkPutObjectStream (mkChan true) (mkChan false) true false,
                 Ret None, Ret (None, None)))
       (newPutObjectStream,
        putObjectServer_SendMsg (GetObjectResponse := string)
          (fun _ => "v") newPutObjectStream_server
          (of_PutObjectResponse None),
        putObjectClient_CloseAndRecv
          (newPutObjectStream_client (PutObjectRequest := string)
             (PutObjectResponse := string))).
Proof.
  split; [split; reflexivity |].
  exact (proj2 (SendMsg_hands_off_nil_payload string string string
                  (fun _ => "v") newPutObjectStream
                  (conj eq_refl eq_refl) eq_refl)).
Defined.

Lemma getOpts_last_channel_id_wins_witness :
  getOpts [WithChannelId "a"; WithChannelId "b"] = Some (mkOptions "b")
  /\ getOpts [WithChannelId "a"; None; WithChannelId "b"] = None.
Proof.
  assert (H : Forall (fun o : Option => o <> None) [WithChannelId "a"])
    by (constructor; [discriminate | constructor]).
  split.
  - exact (proj1 (proj2 (getOpts_last_channel_id_wins
                           [WithChannelId "a"] [] "b" H))).
  - exact (proj2 (proj2 (getOpts_last_channel_id_wins
                           [WithChannelId "a"] [WithChannelId "b"] "b" H))).
Defined.

Lemma ListNextPage_carries_and_collects_witness :
  let page :=
    mkHostCatalogListResult unit unit unit unit unit unit in
  let cur := page [] (BinNums.Npos (BinNums.xO BinNums.xH)) ["b"] "t0"
               "delta" None false BinNums.N0 "global" ["b"; "a"] in
  let decoded := page [] (BinNums.Npos (BinNums.xO BinNums.xH)) ["a"; "c"]
                   "t1" "complete" None false BinNums.N0 "" [] in
  exists next,
    ListNextPage (fun (_ : unit) _ (_ : list unit) => inr (decoded, tt))
      (fun _ => []) (mkClient (Some tt)) (Some cur) []
    = inr next
    /\ RemovedIds next = ["a"; "b"; "c"]
    /\ NoDup (RemovedIds next)
    /\ scopeId next = "global".
Proof.
  intros page cur decoded.
  exists (ListNextPage_carry (fun _ => []) cur decoded tt).
  split; [reflexivity |]. split; [reflexivity |].
  destruct (ListNextPage_carries_and_collects
              (fun (_ : unit) _ (_ : list unit) => inr (decoded, tt))
              (fun _ => []) (mkClient (Some tt)) cur
              (ListNextPage_carry (fun _ => []) cur decoded tt) []
              eq_refl)
    as (api & d & resp & _ & Hreq & _ & _ & _ & _ & _ & _ & _ & _ & Hs & _
        & _ & _ & HC).
  injection Hreq as <- <-.
  split; [exact (proj1 (proj2 (HC eq_refl))) | exact Hs].
Defined.

Lemma pagination_collects_all_removed_ids_witness :
  let page :=
    mkHostCatalogListResult unit unit unit unit unit unit in
  let cur := page [] (BinNums.Npos (BinNums.xO BinNums.xH)) ["b"] "t0"
               "delta" None false BinNums.N0 "global" ["b"; "a"] in
  let decoded := page [] (BinNums.Npos (BinNums.xO BinNums.xH)) ["a"; "c"]
                   "t1" "complete" None false BinNums.N0 "" [] in
  RemovedIds (ListNextPage_carry (fun _ => []) cur decoded tt)
  = ["a"; "b"; "c"]
  /\ NoDup (RemovedIds (ListNextPage_carry (fun _ => []) cur decoded tt)).
Proof.
  intros page cur decoded. split; [reflexivity |].
  refine (proj1 (proj2
    (pagination_collects_all_removed_ids
       (fun (_ : unit) _ (_ : list unit) => inr (decoded, tt))
       (fun _ => []) (mkClient (Some tt)) [] cur
       (ListNextPage_carry (fun _ => []) cur decoded tt) [decoded] _ _))).
  - apply pagination_last with (api := tt) (resp := tt); reflexivity.
  - reflexivity.
Defined.


Lemma removal_moves_the_last_item_or_panics_witness :
  let hc (id : string) :=
    mkHostCatalog unit unit unit unit unit
      id "global" None "" None "" "" tt tt (BinNums.Npos BinNums.xH)
      "static" tt tt "" "" [] tt in
  remove_item ([Some (hc "A")], index_map_set index_map_empty "A" 0) "A"
  = None.
Proof.
  intros hc.
  refine (proj1 (proj2 (proj2
    (removal_moves_the_last_item_or_panics []
       ([Some (hc "A")], index_map_set index_map_empty "A" 0) "A" _ _)))
    0 eq_refl eq_refl).
  - split; simpl.
    + intros [| [| i]] x H; try discriminate.
      injection H as <-. exists (hc "A"). split; [reflexivity |].
      split; [reflexivity | intros []].
    + intros id i H _. unfold index_map_set in H.
      destruct (String.eqb_spec id "A") as [-> | Hne]; [| discriminate].
      injection H as <-. exists (hc "A"). split; reflexivity.
  - intros [].
Defined.

Lemma removals_leave_the_items_not_removed_witness :
  let hc (id : string) :=
    mkHostCatalog unit unit unit unit unit
      id "global" None "" None "" "" tt tt (BinNums.Npos BinNums.xH)
      "static" tt tt "" "" [] tt in
  let idx := index_map_set (index_map_set index_map_empty "A" 0) "B" 1 in
  remove_items ([Some (hc "A"); Some (hc "B")], idx) ["A"]
  = Some ([Some (hc "B")], index_map_set idx "B" 0)
  /\ forall x,
       In x [Some (hc "B")]
       <-> In x [Some (hc "A"); Some (hc "B")]
           /\ exists it, x = Some it /\ ~ In (Id it) ["A"].
Proof.
  intros hc idx.
  split; [reflexivity |].
  refine (proj1
    (removals_leave_the_items_not_removed
       ([Some (hc "A"); Some (hc "B")], idx)
       ([Some (hc "B")], index_map_set idx "B" 0) ["A"] _ _ eq_refl)).
  - split; simpl.
    + intros [| [| [| i]]] x H; try discriminate.
      * injection H as <-. exists (hc "A"). split; [reflexivity |].
        split; [reflexivity | intros []].
      * injection H as <-. exists (hc "B"). split; [reflexivity |].
        split; [reflexivity | intros []].
    + intros id i H _. unfold idx, index_map_set in H.
      destruct (String.eqb_spec id "B") as [-> | HB].
      * injection H as <-. exists (hc "B"). split; reflexivity.
      * destruct (String.eqb_spec id "A") as [-> | HA]; [| discriminate].
        injection H as <-. exists (hc "A"). split; reflexivity.
  - constructor; [intros [] | constructor].
Defined.

Lemma request_channel_carries_requests_only_witness :
  let p := (x <- putObject_do string string string (fun _ => "v")
                   (call_putObjectServer_Recv string string string) ;;
            Ret x) in
  let q := (x <- putObject_do string string string (fun _ => "v")
                   (call_putObjectClient_CloseSend string string string) ;;
            Ret x) in
  let cfg := (mkPutObjectStream (mkChan true) (mkChan false) true false,
              Ret (None, Some io_EOF), Ret None) in
  steps (newPutObjectStream, p, q) cfg
  /\ (snd (fst cfg) = p
      \/ snd (fst cfg) = Ret (None, Some io_EOF)
      \/ exists req, snd (fst cfg) = Ret (Some req, None)).
Proof.
  intros p q cfg.
  assert (Hrun : steps (newPutObjectStream, p, q)
                   (mkPutObjectStream (mkChan true) (mkChan false)
                      true false, p, Ret None)).
  { eapply steps_cons; [apply step_succs; cbn; left; reflexivity |].
    eapply steps_cons; [apply step_succs; cbn; left; reflexivity |].
    apply steps_refl. }
  split.
  - eapply steps_cons; [apply step_succs; cbn; left; reflexivity |].
    eapply steps_cons; [apply step_succs; cbn; left; reflexivity |].
    eapply steps_cons; [apply step_succs; cbn; left; reflexivity |].
    apply steps_refl.
  - refine (proj2 (proj2
      (request_channel_carries_requests_only string string string
         (fun _ => "v") p q newPutObjectStream _ p (Ret None) _ _ Hrun))
      (fun x => Ret x) cfg eq_refl _).
    + apply (putObject_caller_call string string string (fun _ => "v")).
      intros x. apply putObject_caller_done.
    + apply (putObject_caller_call string string string (fun _ => "v")).
      intros x. apply putObject_caller_done.
    + apply step_succs. cbn. left. reflexivity.
Defined.
